(** * pyorca: the 2D ORCA collision-avoidance step and its half-plane LP solver

    A shallow embedding of [halfplaneintersect.py] and [pyorca.py].

    Numbers.  The specification's data model takes a vector to be a pair of
    reals, and so does the main development: a numpy float is a real number
    [R], arithmetic is exact.  Three things of IEEE arithmetic are kept
    visible there:

    - the two infinities that [line_halfplane_intersect] starts its bounds
      from are values of [ereal];
    - a Python exception ([AssertionError] from [assert], [InfeasibleError]
      from [raise]) is the outcome [Raise];
    - a computation in which numpy would produce an infinity or a NaN where
      a real number is needed (a quotient by zero, a product with an
      infinite bound) has the outcome [NonFinite]: nothing is claimed about
      what the program does from there on.

    Rounding and the sign of zero are not modelled there.  Where the
    behaviour of the program turns on them, the functions are embedded a
    second time on binary64 numbers, in the module [F64]: the constructor
    of [Line] overflows, underflows and rounds.

    Layout.  [pyorca.py] as it stands has a statement indented under a
    statement that opens no block; the compiler refuses the module before
    any of it runs.  The layout of the file and the compiler's check of it
    are modelled in [pyorca_layout] and [check_layout]; the functions of
    the module are embedded as they read with that statement aligned. *)

From Stdlib Require Import Reals Lra Psatz List Permutation.
From Stdlib Require PrimFloat FloatOps SpecFloat.
Import ListNotations.

Open Scope R_scope.

(** * The program *)

(** ** Outcomes of a call *)

Inductive exn : Type :=
| AssertionError
| InfeasibleError.

Inductive outcome (A : Type) : Type :=
| Ok (a : A)
| Raise (e : exn)
| NonFinite.

Arguments Ok {A} a.
Arguments Raise {A} e.
Arguments NonFinite {A}.

Definition bind {A B : Type} (m : outcome A) (k : A -> outcome B) : outcome B :=
  match m with
  | Ok a => k a
  | Raise e => Raise e
  | NonFinite => NonFinite
  end.

Notation "x <- m ;; k" := (bind m (fun x => k))
  (at level 61, m at next level, right associativity).
Notation "' pat <- m ;; k" := (bind m (fun x => match x with pat => k end))
  (at level 61, pat pattern, m at next level, right associativity).

(** ** Vectors (numpy arrays of two floats) *)

Record Vector2 : Type := vec2 { vx : R; vy : R }.

Definition vadd (a b : Vector2) : Vector2 := vec2 (vx a + vx b) (vy a + vy b).
Definition vsub (a b : Vector2) : Vector2 := vec2 (vx a - vx b) (vy a - vy b).
Definition vneg (a : Vector2) : Vector2 := vec2 (- vx a) (- vy a).
Definition vscale (a : Vector2) (c : R) : Vector2 := vec2 (vx a * c) (vy a * c).
Definition vquot (a : Vector2) (c : R) : Vector2 := vec2 (vx a / c) (vy a / c).

(** [a / c] and [p / q] where the source does not test the divisor. *)
Definition vdiv (a : Vector2) (c : R) : outcome Vector2 :=
  if Req_dec_T c 0 then NonFinite else Ok (vquot a c).

Definition fdiv (p q : R) : outcome R :=
  if Req_dec_T q 0 then NonFinite else Ok (p / q).

Declare Scope vec_scope.
Delimit Scope vec_scope with V.
Bind Scope vec_scope with Vector2.
Infix "+" := vadd : vec_scope.
Infix "-" := vsub : vec_scope.
Notation "- a" := (vneg a) : vec_scope.

(** [numpy.dot] on two vectors and [numpy.linalg.det] on the 2x2 matrix
    whose rows are [a] and [b]. *)
Definition dot (a b : Vector2) : R := vx a * vx b + vy a * vy b.
Definition det (a b : Vector2) : R := vx a * vy b - vy a * vx b.

(** [numpy.copysign]: the magnitude of [r] with the sign of [y].  A real
    number has no signed zero: the sign of a zero [y] is taken as that of
    [+0]. *)
Definition copysign (r y : R) : R :=
  if Rlt_dec y 0 then - Rabs r else Rabs r.

(** ** halfplaneintersect.py *)

Definition perp (a : Vector2) : Vector2 := vec2 (vy a) (- vx a).

Definition norm_sq (x : Vector2) : R := dot x x.

Definition norm (x : Vector2) : R := sqrt (norm_sq x).

(** In exact arithmetic: [norm_sq] is positive on every vector but the
    zero vector and the quotient has unit length.  [F64.normalized] is the
    same function on binary64, where [norm_sq] can overflow or underflow. *)
Definition normalized (x : Vector2) : outcome Vector2 :=
  let l := norm_sq x in
  if Rgt_dec l 0 then Ok (vquot x (sqrt l)) else Raise AssertionError.

Definition dist_sq (a b : Vector2) : R := norm_sq (b - a).

(** [class Line]: the two attributes, and [__init__]. *)
Record Line : Type := Build_Line { point : Vector2; direction : Vector2 }.

Definition Line_init (pt dir : Vector2) : outcome Line :=
  d <- normalized dir ;;
  Ok (Build_Line pt d).

(** Floats that may be infinite: the bounds of the feasible interval. *)
Inductive ereal : Type :=
| NegInf
| Fin (x : R)
| PosInf.

(** [a < b] on such floats. *)
Definition elt (a b : ereal) : Prop :=
  match a, b with
  | NegInf, NegInf => False
  | NegInf, _ => True
  | Fin x, Fin y => x < y
  | Fin _, PosInf => True
  | Fin _, NegInf => False
  | PosInf, _ => False
  end.

Definition ele (a b : ereal) : Prop := ~ elt b a.

Definition elt_dec (a b : ereal) : {elt a b} + {~ elt a b}.
Proof.
  destruct a as [|x|], b as [|y|]; simpl;
    try (left; exact I); try (right; intros []).
  apply Rlt_dec.
Defined.

(** Python's [min((a, b))] and [max((a, b))]: the first argument is kept
    unless the second is strictly better. *)
Definition emin (a b : ereal) : ereal := if elt_dec b a then b else a.
Definition emax (a b : ereal) : ereal := if elt_dec a b then b else a.

(** [numpy.clip(x, lo, hi)] is [minimum(maximum(x, lo), hi)]. *)
Definition clip (x lo hi : ereal) : ereal :=
  let m := if elt_dec x lo then lo else x in
  if elt_dec hi m then hi else m.

Fixpoint line_halfplane_intersect_loop
    (line : Line) (other_lines : list Line) (left_dist right_dist : ereal)
    : outcome (ereal * ereal) :=
  match other_lines with
  | [] => Ok (left_dist, right_dist)
  | prev_line :: rest =>
      let num := dot (direction prev_line) (point line - point prev_line) in
      let den := det (direction line) (direction prev_line) in
      if Req_dec_T den 0 then
        if Rlt_dec num 0 then Raise InfeasibleError
        else line_halfplane_intersect_loop line rest left_dist right_dist
      else
        let offset := num / den in
        let '(left_dist', right_dist') :=
          if Rgt_dec den 0
          then (left_dist, emin right_dist (Fin offset))
          else (emax left_dist (Fin offset), right_dist) in
        if elt_dec right_dist' left_dist' then Raise InfeasibleError
        else line_halfplane_intersect_loop line rest left_dist' right_dist'
  end.

Definition line_halfplane_intersect (line : Line) (other_lines : list Line)
    : outcome (ereal * ereal) :=
  line_halfplane_intersect_loop line other_lines NegInf PosInf.

Definition point_line_project
    (line : Line) (pt : Vector2) (left_bound right_bound : ereal)
    : outcome Vector2 :=
  let new_dir := perp (direction line) in
  let proj_len := dot (pt - point line) new_dir in
  match clip (Fin proj_len) left_bound right_bound with
  | Fin clamped_len => Ok (point line + vscale new_dir clamped_len)%V
  | _ => NonFinite
  end.

(** The body of [for i, line in enumerate(lines)]: [rest] is what is left
    to enumerate, [i] the index of its head, [pt] the running point. *)
Fixpoint halfplane_optimize_loop
    (lines : list Line) (optimal_point : Vector2)
    (i : nat) (rest : list Line) (pt : Vector2) : outcome Vector2 :=
  match rest with
  | [] => Ok pt
  | line :: rest' =>
      if Rge_dec (dot (pt - point line) (direction line)) 0 then
        halfplane_optimize_loop lines optimal_point (S i) rest' pt
      else
        let prev_lines := firstn i lines in
        '(left_dist, right_dist) <- line_halfplane_intersect line prev_lines ;;
        pt' <- point_line_project line optimal_point left_dist right_dist ;;
        halfplane_optimize_loop lines optimal_point (S i) rest' pt'
  end.

Definition halfplane_optimize (lines : list Line) (optimal_point : Vector2)
    : outcome Vector2 :=
  halfplane_optimize_loop lines optimal_point 0 lines optimal_point.

(** ** The layout of pyorca.py

    Python compiles a module as a whole before it runs any of it.  The
    compiler reads the file as logical lines (a statement with its
    continuation lines; blank lines and comments do not count) and keeps a
    stack of the indentations of the open blocks.  A line may be indented
    deeper than the block it follows only as the first line of a new block,
    that is after a line that ends with the colon of a compound statement;
    otherwise it must stand at the indentation of an open block.  What
    matters of a logical line is so its number in the file, the column of
    its first token and whether it opens a block. *)

Record logical_line : Type := at_line {
  lineno : nat;
  indent : nat;
  opens_block : bool
}.

(** The three messages of [IndentationError]. *)
Inductive layout_error : Type :=
| UnexpectedIndent
| ExpectedIndentedBlock
| UnindentMismatch.

(** Closing blocks until one of indentation [col] is on top. *)
Fixpoint dedent_to (col : nat) (stack : list nat) : option (list nat) :=
  match stack with
  | [] => None
  | top :: below =>
      if Nat.eqb col top then Some stack
      else if Nat.ltb top col then None
      else dedent_to col below
  end.

(** [stack] holds the indentations of the open blocks, the innermost
    first; [header] tells that the line before opened a block.  The result
    is the first line that the compiler refuses, with the message. *)
Fixpoint check_layout (stack : list nat) (header : bool)
    (lines : list logical_line) : option (nat * layout_error) :=
  match lines with
  | [] => None
  | l :: rest =>
      let top := hd 0%nat stack in
      if header then
        if Nat.ltb top (indent l)
        then check_layout (indent l :: stack) (opens_block l) rest
        else Some (lineno l, ExpectedIndentedBlock)
      else if Nat.ltb top (indent l) then Some (lineno l, UnexpectedIndent)
      else
        match dedent_to (indent l) stack with
        | Some stack' => check_layout stack' (opens_block l) rest
        | None => Some (lineno l, UnindentMismatch)
        end
  end.

(** The logical lines of [src/pyorca.py]. *)
Definition pyorca_layout : list logical_line :=
  [ at_line 21 0 false;   (* the module's docstring *)
    at_line 24 0 false;   (* from __future__ import division *)
    at_line 26 0 false;   (* import numpy *)
    at_line 27 0 false;   (* from numpy import array, sqrt, copysign, dot *)
    at_line 28 0 false;   (* from numpy.linalg import det *)
    at_line 30 0 false;   (* from halfplaneintersect import ... *)
    at_line 39 0 true;    (* class Agent(object): *)
    at_line 40 4 false;
    at_line 41 4 true;    (* def __init__(...): *)
    at_line 42 8 false;
    at_line 43 8 false;
    at_line 44 8 false;
    at_line 45 8 false;
    at_line 46 8 false;
    at_line 47 8 false;
    at_line 50 0 true;    (* def orca(agent, colliding_agents, t, dt): *)
    at_line 51 4 false;
    at_line 54 4 false;   (* lines = [] *)
    at_line 55 4 true;    (* for collider in colliding_agents: *)
    at_line 56 8 false;
    at_line 57 8 false;
    at_line 58 8 false;
    at_line 59 4 false;   (* return halfplane_optimize(...), lines *)
    at_line 61 0 true;    (* def get_avoidance_velocity(...): *)
    at_line 62 4 false;
    at_line 97 4 false;   (* x = -(agent.position - collider.position) *)
    at_line 98 4 false;
    at_line 99 4 false;
    at_line 101 4 false;  (* x_len_sq = norm_sq(x) *)
    at_line 103 4 true;   (* if x_len_sq >= r * r: *)
    at_line 113 8 false;  (* adjusted_center = ... *)
    at_line 115 8 true;   (* if dot(v - adjusted_center, adjusted_center) < 0: *)
    at_line 119 12 false;
    at_line 120 12 false;
    at_line 121 12 false;
    at_line 122 8 true;   (* else: *)
    at_line 126 12 false; (* leg_len = sqrt(x_len_sq - r*r) *)
    at_line 128 12 false; (* sine = copysign(r, det((v, x))) *)
    at_line 129 12 false; (* rot = array(...), three lines *)
    at_line 132 12 false; (* rotated_x = rot.dot(x) / x_len_sq *)
    at_line 133 16 false; (* n = perp(rotated_x) *)
    at_line 134 12 true;  (* if sine < 0: *)
    at_line 137 16 false; (* n = -n *)
    at_line 139 12 false; (* u = rotated_x * dot(v, rotated_x) - v *)
    at_line 141 4 true;   (* else: *)
    at_line 146 8 false;
    at_line 147 8 false;
    at_line 148 8 false;
    at_line 149 4 false;  (* return u, n *)
    at_line 151 0 true;   (* def norm_sq(x): *)
    at_line 152 4 false;
    at_line 154 0 true;   (* def normalized(x): *)
    at_line 155 4 false;
    at_line 156 4 false;
    at_line 157 4 false;
    at_line 159 0 true;   (* def dist_sq(a, b): *)
    at_line 160 4 false ].

(** The same lines with line [n] moved to the column [col]. *)
Definition realign (n col : nat) (lines : list logical_line)
    : list logical_line :=
  map (fun l => if Nat.eqb (lineno l) n
                then at_line (lineno l) col (opens_block l) else l)
      lines.

(** What a client gets of the module: [body] is what the call of one of
    its functions computes; it is computed only if the module compiles. *)
Inductive imported (A : Type) : Type :=
| Runs (result : A)
| IndentationError (line : nat) (message : layout_error).

Arguments Runs {A} result.
Arguments IndentationError {A} line message.

Definition import_pyorca {A : Type} (body : A) : imported A :=
  match check_layout [0%nat] false pyorca_layout with
  | None => Runs body
  | Some (line, message) => IndentationError line message
  end.

(** ** pyorca.py, with line 133 aligned *)

Record Agent : Type := Build_Agent {
  position : Vector2;
  velocity : Vector2;
  radius : R;
  max_speed : R;
  pref_velocity : Vector2
}.

(** The body of the function as it reads when the statement
    [n = perp(rotated_x)] of line 133, which stands four columns to the
    right of its neighbours, is taken as the statement of the [else] block
    that follows [rotated_x = ...].  [xt] is [x/t], [q] is
    [(r*r)/x_len_sq], [rot_x] is [rot.dot(x)] and [s] is
    [normalized(w) * r/t], that is [(normalized(w) * r) / t].  The sign
    that [copysign] takes from a determinant that is zero is that of [+0]
    here; numpy takes the sign bit of the zero that its LU factorisation
    produced. *)
Definition get_avoidance_velocity (agent collider : Agent) (t dt : R)
    : outcome (Vector2 * Vector2) :=
  let x := (- (position agent - position collider))%V in
  let v := (velocity agent - velocity collider)%V in
  let r := radius agent + radius collider in
  let x_len_sq := norm_sq x in
  if Rge_dec x_len_sq (r * r) then
    xt <- vdiv x t ;;
    q <- fdiv (r * r) x_len_sq ;;
    let adjusted_center := vscale xt (1 - q) in
    if Rlt_dec (dot (v - adjusted_center) adjusted_center) 0 then
      let w := (v - xt)%V in
      nw <- normalized w ;;
      s <- vdiv (vscale nw r) t ;;
      let u := (s - w)%V in
      n <- normalized w ;;
      Ok (u, n)
    else
      let leg_len := sqrt (x_len_sq - r * r) in
      let sine := copysign r (det v x) in
      let rot_x := vec2 (leg_len * vx x + sine * vy x)
                        (- sine * vx x + leg_len * vy x) in
      rotated_x <- vdiv rot_x x_len_sq ;;
      let n := perp rotated_x in
      let n := if Rlt_dec sine 0 then (- n)%V else n in
      let u := (vscale rotated_x (dot v rotated_x) - v)%V in
      Ok (u, n)
  else
    xdt <- vdiv x dt ;;
    let w := (v - xdt)%V in
    nw <- normalized w ;;
    s <- vdiv (vscale nw r) dt ;;
    let u := (s - w)%V in
    n <- normalized w ;;
    Ok (u, n).

(** The body of [for collider in colliding_agents], [lines] being the list
    built so far. *)
Fixpoint orca_loop (agent : Agent) (colliding_agents : list Agent) (t dt : R)
    (lines : list Line) : outcome (list Line) :=
  match colliding_agents with
  | [] => Ok lines
  | collider :: rest =>
      '(dv, n) <- get_avoidance_velocity agent collider t dt ;;
      line <- Line_init (velocity agent + vquot dv 2) n ;;
      orca_loop agent rest t dt (lines ++ [line])
  end.

Definition orca (agent : Agent) (colliding_agents : list Agent) (t dt : R)
    : outcome (Vector2 * list Line) :=
  lines <- orca_loop agent colliding_agents t dt [] ;;
  new_vel <- halfplane_optimize lines (pref_velocity agent) ;;
  Ok (new_vel, lines).

(** The calls [pyorca.get_avoidance_velocity(...)] and [pyorca.orca(...)]
    of a client of the module as it stands. *)
Definition call_get_avoidance_velocity (agent collider : Agent) (t dt : R)
    : imported (outcome (Vector2 * Vector2)) :=
  import_pyorca (get_avoidance_velocity agent collider t dt).

Definition call_orca (agent : Agent) (colliding_agents : list Agent) (t dt : R)
    : imported (outcome (Vector2 * list Line)) :=
  import_pyorca (orca agent colliding_agents t dt).

(** ** The same functions over a store of Python objects

    Agents, Lines and lists are objects: a caller and a callee that hold
    the same reference see each other's writes.  The store maps a reference
    to the attributes of the Agent, of the Line or to the items of the list
    that it denotes; the objects that exist are those below [next].  A
    numpy array is a value: the functions under study build a new array in
    every arithmetic step and contain no in-place array operation.

    A program takes the store and gives an outcome and the store it leaves,
    also when it raises. *)

Definition ref : Type := nat.

Record store : Type := Build_store {
  agent_at : ref -> Agent;
  line_at : ref -> Line;
  list_at : ref -> list ref;
  next : ref
}.

Definition prog (A : Type) : Type := store -> outcome A * store.

Definition ret {A : Type} (a : A) : prog A := fun s => (Ok a, s).

Definition lift {A : Type} (m : outcome A) : prog A := fun s => (m, s).

Definition bind_prog {A B : Type} (m : prog A) (k : A -> prog B) : prog B :=
  fun s =>
    match m s with
    | (Ok a, s') => k a s'
    | (Raise e, s') => (Raise e, s')
    | (NonFinite, s') => (NonFinite, s')
    end.

Notation "x <~ m ;; k" := (bind_prog m (fun x => k))
  (at level 61, m at next level, right associativity).
Notation "' pat <~ m ;; k" :=
  (bind_prog m (fun x => match x with pat => k end))
  (at level 61, pat pattern, m at next level, right associativity).

Definition upd {A : Type} (f : ref -> A) (r : ref) (a : A) : ref -> A :=
  fun r' => if Nat.eqb r' r then a else f r'.

(** Reads: the attributes of an Agent, the items of a list. *)
Definition get_agent (a : ref) : prog Agent := fun s => (Ok (agent_at s a), s).
Definition get_items (l : ref) : prog (list ref) := fun s => (Ok (list_at s l), s).

(** Allocation of a Line object and of an empty list, and [list.append]. *)
Definition new_line (l : Line) : prog ref :=
  fun s => (Ok (next s),
            Build_store (agent_at s) (upd (line_at s) (next s) l)
                        (list_at s) (S (next s))).

Definition new_list : prog ref :=
  fun s => (Ok (next s),
            Build_store (agent_at s) (line_at s)
                        (upd (list_at s) (next s) []) (S (next s))).

Definition append (lst x : ref) : prog unit :=
  fun s => (Ok tt,
            Build_store (agent_at s) (line_at s)
                        (upd (list_at s) lst (list_at s lst ++ [x])) (next s)).

Module Heap.

(** [l.point], [l.direction] and [raise]. *)
Definition get_point (l : ref) : prog Vector2 :=
  fun s => (Ok (point (line_at s l)), s).
Definition get_direction (l : ref) : prog Vector2 :=
  fun s => (Ok (direction (line_at s l)), s).
Definition raise {A : Type} (e : exn) : prog A := fun s => (Raise e, s).

(** [Line(pt, dir)] *)
Definition Line_init (pt dir : Vector2) : prog ref :=
  d <~ lift (normalized dir) ;;
  new_line (Build_Line pt d).

Fixpoint line_halfplane_intersect_loop
    (line : ref) (other_lines : list ref) (left_dist right_dist : ereal)
    : prog (ereal * ereal) :=
  match other_lines with
  | [] => ret (left_dist, right_dist)
  | prev_line :: rest =>
      prev_dir <~ get_direction prev_line ;;
      line_pt <~ get_point line ;;
      prev_pt <~ get_point prev_line ;;
      let num := dot prev_dir (line_pt - prev_pt) in
      line_dir <~ get_direction line ;;
      prev_dir' <~ get_direction prev_line ;;
      let den := det line_dir prev_dir' in
      if Req_dec_T den 0 then
        if Rlt_dec num 0 then raise InfeasibleError
        else line_halfplane_intersect_loop line rest left_dist right_dist
      else
        let offset := num / den in
        let '(left_dist', right_dist') :=
          if Rgt_dec den 0
          then (left_dist, emin right_dist (Fin offset))
          else (emax left_dist (Fin offset), right_dist) in
        if elt_dec right_dist' left_dist' then raise InfeasibleError
        else line_halfplane_intersect_loop line rest left_dist' right_dist'
  end.

Definition line_halfplane_intersect (line : ref) (other_lines : list ref)
    : prog (ereal * ereal) :=
  line_halfplane_intersect_loop line other_lines NegInf PosInf.

Definition point_line_project
    (line : ref) (pt : Vector2) (left_bound right_bound : ereal)
    : prog Vector2 :=
  line_dir <~ get_direction line ;;
  let new_dir := perp line_dir in
  line_pt <~ get_point line ;;
  let proj_len := dot (pt - line_pt) new_dir in
  match clip (Fin proj_len) left_bound right_bound with
  | Fin clamped_len =>
      line_pt' <~ get_point line ;;
      ret (line_pt' + vscale new_dir clamped_len)%V
  | _ => lift NonFinite
  end.

(** [rest] is what is left of the items that [enumerate(lines)] goes
    through; [islice(lines, i)] reads the list when it is consumed. *)
Fixpoint halfplane_optimize_loop
    (lines : ref) (optimal_point : Vector2)
    (i : nat) (rest : list ref) (pt : Vector2) : prog Vector2 :=
  match rest with
  | [] => ret pt
  | line :: rest' =>
      line_pt <~ get_point line ;;
      line_dir <~ get_direction line ;;
      if Rge_dec (dot (pt - line_pt) line_dir) 0 then
        halfplane_optimize_loop lines optimal_point (S i) rest' pt
      else
        items <~ get_items lines ;;
        let prev_lines := firstn i items in
        '(left_dist, right_dist) <~ line_halfplane_intersect line prev_lines ;;
        pt' <~ point_line_project line optimal_point left_dist right_dist ;;
        halfplane_optimize_loop lines optimal_point (S i) rest' pt'
  end.

Definition halfplane_optimize (lines : ref) (optimal_point : Vector2)
    : prog Vector2 :=
  items <~ get_items lines ;;
  halfplane_optimize_loop lines optimal_point 0 items optimal_point.

(** The attributes of the two agents are read in the first three
    statements; the rest computes on local values. *)
Definition get_avoidance_velocity (agent collider : ref) (t dt : R)
    : prog (Vector2 * Vector2) :=
  a <~ get_agent agent ;;
  c <~ get_agent collider ;;
  lift (get_avoidance_velocity a c t dt).

(** [orca] allocates the list [lines], a Line per collider, and appends
    each Line to [lines]. *)
Fixpoint orca_loop (agent : ref) (colliding_agents : list ref) (t dt : R)
    (lines : ref) : prog unit :=
  match colliding_agents with
  | [] => ret tt
  | collider :: rest =>
      '(dv, n) <~ get_avoidance_velocity agent collider t dt ;;
      a <~ get_agent agent ;;
      line <~ Line_init (velocity a + vquot dv 2) n ;;
      _ <~ append lines line ;;
      orca_loop agent rest t dt lines
  end.

Definition orca (agent colliding_agents : ref) (t dt : R)
    : prog (Vector2 * ref) :=
  lines <~ new_list ;;
  colliders <~ get_items colliding_agents ;;
  _ <~ orca_loop agent colliders t dt lines ;;
  a <~ get_agent agent ;;
  new_vel <~ halfplane_optimize lines (pref_velocity a) ;;
  ret (new_vel, lines).

End Heap.

(** ** The constructor of Line in binary64

    The constructor of [Line] and the functions it calls, on the numbers
    that the program computes with: numpy's float64, the binary64 format
    of IEEE 754.  Sums, products, quotients and square roots are rounded
    to the nearest float; a result too large is an infinity, a result too
    small is zero.  [numpy.dot] of two vectors of two floats is the sum of
    the two products, each of them rounded; [l > 0] is false of zero and of
    a NaN. *)

Module F64.

Import PrimFloat.
Local Open Scope float_scope.

Record Vector2 : Type := vec2 { vx : float; vy : float }.

Definition dot (a b : Vector2) : float := vx a * vx b + vy a * vy b.

Definition norm_sq (x : Vector2) : float := dot x x.

Definition norm (x : Vector2) : float := sqrt (norm_sq x).

Definition normalized (x : Vector2) : outcome Vector2 :=
  let l := norm_sq x in
  if ltb 0 l then Ok (vec2 (vx x / sqrt l) (vy x / sqrt l))
  else Raise AssertionError.

Record Line : Type := Build_Line { point : Vector2; direction : Vector2 }.

Definition Line_init (pt dir : Vector2) : outcome Line :=
  d <- normalized dir ;;
  Ok (Build_Line pt d).

(** Not the zero vector. *)
Definition nonzero (x : Vector2) : bool :=
  negb (eqb (vx x) 0 && eqb (vy x) 0).

(** Concrete vectors: a direction whose square overflows, one whose square
    underflows, and the anchors and directions of two parallel lines with
    the values that the constructor stores for them. *)
Definition origin : Vector2 := vec2 0 0.
Definition huge : Vector2 := vec2 0x1p600 0.
Definition tiny : Vector2 := vec2 0x1p-600 0.

End F64.




(** ** The assertion of normalized on 64-bit integers

    [array((2**32, 0))] is an array of 64-bit integers, and numpy's sums
    and products of such integers wrap around modulo [2^64].  Of
    [normalized] on such an array only the first two statements are
    embedded, [l = norm_sq(x)] and [assert l > 0]. *)

Module I64.

Definition wrap (z : Z) : Z := ((z + 2 ^ 63) mod 2 ^ 64 - 2 ^ 63)%Z.

Record Vector2 : Type := vec2 { vx : Z; vy : Z }.

Definition dot (a b : Vector2) : Z :=
  wrap (wrap (vx a * vx b) + wrap (vy a * vy b)).

Definition norm_sq (x : Vector2) : Z := dot x x.

Definition normalized_assert (x : Vector2) : outcome Z :=
  let l := norm_sq x in
  if (0 <? l)%Z then Ok l else Raise AssertionError.

Definition two_pow_32 : Vector2 := vec2 (2 ^ 32) 0.

End I64.

(** * The vocabulary of the specification *)

(** ** Half-planes, feasible points, closest points *)

(** [q] lies in the closed half-plane of [l]. *)
Definition satisfies (l : Line) (q : Vector2) : Prop :=
  dot (q - point l) (direction l) >= 0.

(** [q] lies in the intersection of the half-planes of [lines]. *)
Definition feasible (lines : list Line) (q : Vector2) : Prop :=
  Forall (fun l => satisfies l q) lines.

(** The class invariant of [Line]: the stored direction has unit length. *)
Definition Line_wf (l : Line) : Prop := norm_sq (direction l) = 1.

(** [s] lies between the smallest and the largest normal number of
    binary64: a float of this size neither overflows nor underflows. *)
Definition normal_double (s : R) : Prop :=
  / 2 ^ 1022 <= s <= (2 - / 2 ^ 52) * 2 ^ 1023.

(** [p] is a point of the intersection of [lines] closest to [target]. *)
Definition optimum (lines : list Line) (target p : Vector2) : Prop :=
  feasible lines p
  /\ forall q, feasible lines q -> dist_sq target p <= dist_sq target q.

(** What a run of the solver over [lines] establishes. *)
Definition solver_post (lines : list Line) (target : Vector2)
    (res : outcome Vector2) : Prop :=
  match res with
  | Ok p => optimum lines target p
  | Raise e => e = InfeasibleError /\ forall q, ~ feasible lines q
  | NonFinite => False
  end.

(** ** Offsets along a boundary line *)

(** The point of the boundary of [line] at signed offset [s] from its
    anchor, in units of [perp (direction line)]. *)
Definition on_line (line : Line) (s : R) : Vector2 :=
  (point line + vscale (perp (direction line)) s)%V.

(** [s] lies between the bounds [lo] and [hi]. *)
Definition in_interval (lo hi : ereal) (s : R) : Prop :=
  ele lo (Fin s) /\ ele (Fin s) hi.

Definition all_satisfied_at (line : Line) (others : list Line) (s : R) : Prop :=
  feasible others (on_line line s).

(** What a run of the loop from the bounds [lo], [hi] over [others]
    establishes: on return, the new bounds enclose exactly the offsets
    within the old ones that every line of [others] accepts; the only
    exception is [InfeasibleError], raised only when no such offset
    exists. *)
Definition interval_post (line : Line) (others : list Line) (lo hi : ereal)
    (res : outcome (ereal * ereal)) : Prop :=
  match res with
  | Ok (lo', hi') =>
      forall s, in_interval lo' hi' s
                <-> in_interval lo hi s /\ all_satisfied_at line others s
  | Raise e =>
      e = InfeasibleError
      /\ forall s, ~ (in_interval lo hi s /\ all_satisfied_at line others s)
  | NonFinite => False
  end.

(** The bounds stay ordered, the left one is never [+inf] and the right one
    never [-inf]. *)
Definition proper_bounds (lo hi : ereal) : Prop :=
  ele lo hi /\ lo <> PosInf /\ hi <> NegInf.

(** The point at fraction [t] of the way from [p] to [q]. *)
Definition lerp (p q : Vector2) (t : R) : Vector2 :=
  vec2 (vx p + t * (vx q - vx p)) (vy p + t * (vy q - vy p)).

(** ** The overlapping case, in the specification's words *)

Definition avoidance_overlapping (x v : Vector2) (r dt : R)
    : outcome (Vector2 * Vector2) :=
  xdt <- vdiv x dt ;;
  let w := (v - xdt)%V in
  nw <- normalized w ;;
  rdt <- fdiv r dt ;;
  Ok ((vscale nw rdt - w)%V, nw).

(** ** Frame conditions on the store *)

(** The objects that existed in [s] are the same in [s']. *)
Definition preserved (s s' : store) : Prop :=
  (next s <= next s')%nat
  /\ forall r, (r < next s)%nat ->
               agent_at s' r = agent_at s r
               /\ line_at s' r = line_at s r
               /\ list_at s' r = list_at s r.

(** What a run of the loop from [s] leaves: the agents and the objects that
    existed untouched, except the list [lines], which has grown. *)
Definition loop_frame (lines : ref) (s s' : store) : Prop :=
  (forall r, agent_at s' r = agent_at s r)
  /\ (next s <= next s')%nat
  /\ (forall r, (r < next s)%nat -> line_at s' r = line_at s r)
  /\ (forall r, r <> lines -> list_at s' r = list_at s r)
  /\ Forall (fun r => (r < next s')%nat) (list_at s' lines).

(** ** Further vocabulary *)

(** The foot of the perpendicular from [pt] to the boundary of [line]. *)
Definition foot (line : Line) (pt : Vector2) : Vector2 :=
  (pt - vscale (direction line) (dot (pt - point line) (direction line)))%V.

(** The value of an outcome through a function. *)
Definition outcome_map {A B : Type} (f : A -> B) (m : outcome A) : outcome B :=
  match m with
  | Ok a => Ok (f a)
  | Raise e => Raise e
  | NonFinite => NonFinite
  end.

(** A Line moved by [w], its direction kept. *)
Definition translate_line (w : Vector2) (l : Line) : Line :=
  Build_Line (point l + w) (direction l).

(** ** Concrete inputs *)

Definition line_x_ge_0 : Line := Build_Line (vec2 0 0) (vec2 1 0).
Definition line_x_le_m1 : Line := Build_Line (vec2 (-1) 0) (vec2 (-1) 0).
Definition line_y_ge_0 : Line := Build_Line (vec2 0 0) (vec2 0 1).

(** Two unit disks whose centres are one unit apart: they overlap. *)
Definition agent_a : Agent :=
  Build_Agent (vec2 0 0) (vec2 0 0) 1 1 (vec2 1 0).
Definition agent_b : Agent :=
  Build_Agent (vec2 1 0) (vec2 0 0) 1 1 (vec2 (-1) 0).

(** Two disks of radius 3/2 five units apart, the first one passing the
    second on its left: the relative velocity is in a leg region and the
    determinant of [v] and [x] is negative. *)
Definition agent_s : Agent :=
  Build_Agent (vec2 0 0) (vec2 4 1) (3 / 2) 5 (vec2 4 1).
Definition agent_t : Agent :=
  Build_Agent (vec2 5 0) (vec2 0 0) (3 / 2) 5 (vec2 0 0).


(** A store with two agents and the list of the second one. *)
Definition store_ab : store :=
  Build_store (fun r => if Nat.eqb r 0 then agent_a else agent_b)
              (fun _ => line_x_ge_0)
              (fun r => if Nat.eqb r 2 then [1%nat] else [])
              3%nat.

(** ** Tactics *)

(** Runs the model on concrete reals: the vector operations are unfolded
    and every test met is decided by linear arithmetic. *)
Ltac unfold_vectors :=
  cbv [det dot vsub vadd vneg vscale vquot perp norm_sq dist_sq vx vy
       point direction line_x_ge_0 line_x_le_m1 line_y_ge_0
       halfplane_optimize line_halfplane_intersect point_line_project
       bind clip emin emax] in *.

Ltac decide_tests :=
  repeat (repeat (progress (simpl; unfold_vectors));
          match goal with
          | |- context [Req_dec_T ?a ?b] =>
              destruct (Req_dec_T a b); try (exfalso; lra)
          | |- context [Rlt_dec ?a ?b] =>
              destruct (Rlt_dec a b); try (exfalso; lra)
          | |- context [Rgt_dec ?a ?b] =>
              destruct (Rgt_dec a b); try (exfalso; lra)
          | |- context [Rge_dec ?a ?b] =>
              destruct (Rge_dec a b); try (exfalso; lra)
          end).

(** * Properties *)

(** ** Elementary facts *)

Lemma vec2_eq (a b : Vector2) : vx a = vx b -> vy a = vy b -> a = b.
Proof. destruct a, b; simpl; intros -> ->; reflexivity. Qed.

Lemma ele_NegInf (b : ereal) : ele NegInf b.
Proof. unfold ele; destruct b; simpl; tauto. Qed.

Lemma ele_PosInf (a : ereal) : ele a PosInf.
Proof. unfold ele; destruct a; simpl; tauto. Qed.

Lemma in_interval_ele (lo hi : ereal) (s : R) : in_interval lo hi s -> ele lo hi.
Proof.
  unfold in_interval, ele.
  destruct lo, hi; simpl; intros [H1 H2]; try tauto; lra.
Qed.

Lemma in_interval_emin (lo hi : ereal) (o s : R) :
  in_interval lo (emin hi (Fin o)) s <-> in_interval lo hi s /\ s <= o.
Proof.
  unfold in_interval, emin, ele.
  destruct (elt_dec (Fin o) hi) as [H | H]; destruct lo, hi; simpl in *;
    intuition lra.
Qed.

Lemma in_interval_emax (lo hi : ereal) (o s : R) :
  in_interval (emax lo (Fin o)) hi s <-> in_interval lo hi s /\ o <= s.
Proof.
  unfold in_interval, emax, ele.
  destruct (elt_dec lo (Fin o)) as [H | H]; destruct lo, hi; simpl in *;
    intuition lra.
Qed.

(** The constraint that [prev] puts on the offset [s] along [line]. *)
Lemma satisfies_on_line (line prev : Line) (s : R) :
  dot (on_line line s - point prev) (direction prev)
  = dot (direction prev) (point line - point prev)
    - s * det (direction line) (direction prev).
Proof. unfold on_line, dot, det, perp, vadd, vsub, vscale; simpl; ring. Qed.

Lemma offset_right (num den s : R) :
  den > 0 -> (num - s * den >= 0 <-> s <= num / den).
Proof.
  intros Hden.
  assert (E : num = num / den * den) by (field; lra).
  split; intros H.
  - apply Rmult_le_reg_r with den; lra.
  - assert (s * den <= num / den * den) by (apply Rmult_le_compat_r; lra). lra.
Qed.

Lemma offset_left (num den s : R) :
  den < 0 -> (num - s * den >= 0 <-> num / den <= s).
Proof.
  intros Hden.
  assert (E : num = num / den * den) by (field; lra).
  split; intros H.
  - apply Rmult_le_reg_r with (- den); [lra |].
    replace (num / den * - den) with (- num) by lra. lra.
  - assert (num / den * (- den) <= s * (- den))
      by (apply Rmult_le_compat_r; lra). lra.
Qed.

(** ** The feasible interval on a boundary line *)

Lemma all_satisfied_at_cons (line prev : Line) (rest : list Line) (s : R) :
  all_satisfied_at line (prev :: rest) s
  <-> satisfies prev (on_line line s) /\ all_satisfied_at line rest s.
Proof.
  unfold all_satisfied_at, feasible. split.
  - intros H. inversion H; subst. tauto.
  - intros [H1 H2]. constructor; assumption.
Qed.

Lemma interval_post_cons (line prev : Line) (rest : list Line)
    (lo hi lo1 hi1 : ereal) (res : outcome (ereal * ereal)) :
  (forall s, in_interval lo1 hi1 s
             <-> in_interval lo hi s /\ satisfies prev (on_line line s)) ->
  interval_post line rest lo1 hi1 res ->
  interval_post line (prev :: rest) lo hi res.
Proof.
  intros Hstep. destruct res as [[lo' hi'] | e |]; simpl; [| | tauto].
  - intros Hiff s. rewrite Hiff, Hstep, all_satisfied_at_cons. tauto.
  - intros [He Hno]. split; [exact He |]. intros s.
    specialize (Hno s). rewrite Hstep in Hno.
    rewrite all_satisfied_at_cons. tauto.
Qed.

Lemma line_halfplane_intersect_loop_spec (line : Line) (others : list Line) :
  forall lo hi,
    interval_post line others lo hi
      (line_halfplane_intersect_loop line others lo hi).
Proof.
  induction others as [| prev rest IH]; intros lo hi; simpl.
  - intros s. unfold all_satisfied_at, feasible. split; [| tauto].
    intros H. split; [exact H | constructor].
  - set (num := dot (direction prev) (point line - point prev)).
    set (den := det (direction line) (direction prev)).
    assert (Hsat : forall s, satisfies prev (on_line line s)
                             <-> num - s * den >= 0).
    { intros s. unfold satisfies. rewrite satisfies_on_line. tauto. }
    destruct (Req_dec_T den 0) as [Hz | Hnz].
    + (* parallel boundaries *)
      destruct (Rlt_dec num 0) as [Hneg | Hpos].
      * split; [reflexivity |]. intros s [_ Hall].
        apply all_satisfied_at_cons in Hall. destruct Hall as [Hp _].
        apply Hsat in Hp. rewrite Hz in Hp. lra.
      * apply interval_post_cons with (lo1 := lo) (hi1 := hi); [| apply IH].
        intros s. rewrite Hsat, Hz. split; [| tauto].
        intros H. split; [exact H | lra].
    + destruct (Rgt_dec den 0) as [Hgt | Hngt].
      * (* the crossing bounds the interval from the right *)
        assert (Hstep : forall s, in_interval lo (emin hi (Fin (num / den))) s
                  <-> in_interval lo hi s /\ satisfies prev (on_line line s)).
        { intros s. rewrite in_interval_emin, Hsat.
          pose proof (offset_right num den s Hgt). tauto. }
        destruct (elt_dec (emin hi (Fin (num / den))) lo) as [Hemp | Hne].
        -- split; [reflexivity |]. intros s [Hin Hall].
           apply all_satisfied_at_cons in Hall. destruct Hall as [Hp _].
           assert (Hin' : in_interval lo (emin hi (Fin (num / den))) s)
             by (apply Hstep; tauto).
           apply in_interval_ele in Hin'. exact (Hin' Hemp).
        -- apply interval_post_cons
             with (lo1 := lo) (hi1 := emin hi (Fin (num / den)));
             [exact Hstep | apply IH].
      * (* the crossing bounds the interval from the left *)
        assert (Hlt : den < 0) by lra.
        assert (Hstep : forall s, in_interval (emax lo (Fin (num / den))) hi s
                  <-> in_interval lo hi s /\ satisfies prev (on_line line s)).
        { intros s. rewrite in_interval_emax, Hsat.
          pose proof (offset_left num den s Hlt). tauto. }
        destruct (elt_dec hi (emax lo (Fin (num / den)))) as [Hemp | Hne].
        -- split; [reflexivity |]. intros s [Hin Hall].
           apply all_satisfied_at_cons in Hall. destruct Hall as [Hp _].
           assert (Hin' : in_interval (emax lo (Fin (num / den))) hi s)
             by (apply Hstep; tauto).
           apply in_interval_ele in Hin'. exact (Hin' Hemp).
        -- apply interval_post_cons
             with (lo1 := emax lo (Fin (num / den))) (hi1 := hi);
             [exact Hstep | apply IH].
Qed.

Lemma line_halfplane_intersect_loop_bounds (line : Line) (others : list Line) :
  forall lo hi lo' hi',
    proper_bounds lo hi ->
    line_halfplane_intersect_loop line others lo hi = Ok (lo', hi') ->
    proper_bounds lo' hi'.
Proof.
  induction others as [| prev rest IH]; intros lo hi lo' hi' Hb; simpl.
  - intros E. injection E as <- <-. exact Hb.
  - destruct (Req_dec_T _ 0) as [Hz | Hnz].
    + destruct (Rlt_dec _ 0); [discriminate | apply IH; exact Hb].
    + destruct Hb as (Hle & Hlo & Hhi).
      destruct (Rgt_dec _ 0) as [Hgt | Hngt].
      * destruct (elt_dec _ lo) as [Hemp | Hne]; [discriminate |].
        apply IH. repeat split; auto.
        unfold emin. destruct (elt_dec _ hi); [discriminate | exact Hhi].
      * destruct (elt_dec hi _) as [Hemp | Hne]; [discriminate |].
        apply IH. repeat split; auto.
        unfold emax. destruct (elt_dec lo _); [discriminate | exact Hlo].
Qed.

(** ** Clamping and projecting *)

Lemma clip_in_interval (x : R) (lo hi : ereal) :
  proper_bounds lo hi ->
  exists c, clip (Fin x) lo hi = Fin c
            /\ in_interval lo hi c
            /\ forall s, in_interval lo hi s ->
                         (c - x) * (c - x) <= (s - x) * (s - x).
Proof.
  unfold proper_bounds, in_interval, ele, clip.
  intros (Hle & Hlo & Hhi).
  destruct (elt_dec (Fin x) lo) as [H1 | H1];
    [ destruct (elt_dec hi lo) as [H2 | H2]
    | destruct (elt_dec hi (Fin x)) as [H2 | H2] ];
    destruct lo as [| l |], hi as [| h |]; simpl in *;
    try congruence; try tauto; try lra;
    match goal with
    | |- exists c, Fin ?y = Fin c /\ _ =>
        exists y; split; [reflexivity |];
        split; [split; (tauto || lra) | intros s [Hs1 Hs2];
                first [ nra
                      | pose proof (Rle_0_sqr (s - x)) as Hsq;
                        unfold Rsqr in Hsq; lra ]]
    end.
Qed.

(** Pythagoras along a boundary line with a unit direction. *)
Lemma dist_sq_on_line (line : Line) (target : Vector2) (s : R) :
  Line_wf line ->
  dist_sq target (on_line line s)
  = (s - dot (target - point line) (perp (direction line)))
    * (s - dot (target - point line) (perp (direction line)))
    + dot (target - point line) (direction line)
      * dot (target - point line) (direction line).
Proof.
  unfold Line_wf, dist_sq, on_line, norm_sq, dot, perp, vadd, vsub, vscale.
  destruct line as [[ax ay] [dx dy]], target as [tx ty]; simpl.
  intros Hu.
  match goal with |- ?L = ?R =>
    assert (E : L - R = (dx * dx + dy * dy - 1)
                        * (s * s - ((tx - ax) * (tx - ax) + (ty - ay) * (ty - ay))))
      by ring
  end.
  rewrite Hu in E. lra.
Qed.

Lemma on_line_boundary (line : Line) (s : R) :
  dot (on_line line s - point line) (direction line) = 0.
Proof. unfold on_line, dot, perp, vadd, vsub, vscale; simpl; ring. Qed.

Lemma boundary_on_line (line : Line) (z : Vector2) :
  Line_wf line ->
  dot (z - point line) (direction line) = 0 ->
  z = on_line line (dot (z - point line) (perp (direction line))).
Proof.
  unfold Line_wf, on_line, norm_sq, dot, perp, vadd, vsub, vscale.
  destruct line as [[ax ay] [dx dy]], z as [zx zy]; simpl.
  intros Hu Hz. apply vec2_eq; simpl.
  - assert (E : ax + dy * ((zx - ax) * dy + (zy - ay) * - dx) - zx
                = (zx - ax) * (dx * dx + dy * dy - 1)
                  - dx * ((zx - ax) * dx + (zy - ay) * dy)) by ring.
    rewrite Hu, Hz in E. lra.
  - assert (E : ay + - dx * ((zx - ax) * dy + (zy - ay) * - dx) - zy
                = (zy - ay) * (dx * dx + dy * dy - 1)
                  - dy * ((zx - ax) * dx + (zy - ay) * dy)) by ring.
    rewrite Hu, Hz in E. lra.
Qed.

(** ** Convexity *)

Lemma dot_lerp (p q a d : Vector2) (t : R) :
  dot (lerp p q t - a) d = (1 - t) * dot (p - a) d + t * dot (q - a) d.
Proof. unfold lerp, dot, vsub; simpl; ring. Qed.

Lemma satisfies_lerp (l : Line) (p q : Vector2) (t : R) :
  0 <= t <= 1 -> satisfies l p -> satisfies l q -> satisfies l (lerp p q t).
Proof.
  unfold satisfies. intros Ht Hp Hq. rewrite dot_lerp. nra.
Qed.

Lemma feasible_lerp (lines : list Line) (p q : Vector2) (t : R) :
  0 <= t <= 1 -> feasible lines p -> feasible lines q ->
  feasible lines (lerp p q t).
Proof.
  unfold feasible. intros Ht Hp Hq.
  induction lines as [| l ls IH]; constructor;
    inversion Hp; inversion Hq; subst; auto using satisfies_lerp.
Qed.

Lemma dist_sq_lerp_eq (target p q : Vector2) (t : R) :
  dist_sq target (lerp p q t)
  = (1 - t) * dist_sq target p + t * dist_sq target q
    - t * (1 - t) * dist_sq p q.
Proof. unfold dist_sq, norm_sq, dot, lerp, vsub; simpl; ring. Qed.

Lemma dist_sq_nonneg (a b : Vector2) : 0 <= dist_sq a b.
Proof. unfold dist_sq, norm_sq, dot; nra. Qed.

Lemma dist_sq_lerp (target p q : Vector2) (t : R) :
  0 <= t <= 1 -> dist_sq target p <= dist_sq target q ->
  dist_sq target (lerp p q t) <= dist_sq target q.
Proof.
  intros Ht Hpq. rewrite dist_sq_lerp_eq.
  pose proof (dist_sq_nonneg p q) as Hd.
  assert (H1 : 0 <= (1 - t) * (dist_sq target q - dist_sq target p))
    by (apply Rmult_le_pos; lra).
  assert (H2 : 0 <= t * (1 - t) * dist_sq p q)
    by (apply Rmult_le_pos; [apply Rmult_le_pos |]; lra).
  lra.
Qed.

(** A segment that leaves the half-plane of [line] at [p] and ends inside
    it at [q] crosses the boundary. *)
Lemma segment_crosses (line : Line) (p q : Vector2) :
  Line_wf line -> ~ satisfies line p -> satisfies line q ->
  exists t s, 0 <= t <= 1 /\ lerp p q t = on_line line s.
Proof.
  unfold satisfies. intros Hwf Hp Hq.
  set (gp := dot (p - point line) (direction line)) in *.
  set (gq := dot (q - point line) (direction line)) in *.
  assert (Hden : gq - gp > 0) by lra.
  exists (- gp / (gq - gp)).
  assert (Ht : 0 <= - gp / (gq - gp) <= 1).
  { split.
    - apply Rmult_le_reg_r with (gq - gp); [lra |].
      replace (- gp / (gq - gp) * (gq - gp)) with (- gp) by (field; lra). lra.
    - apply Rmult_le_reg_r with (gq - gp); [lra |].
      replace (- gp / (gq - gp) * (gq - gp)) with (- gp) by (field; lra). lra. }
  eexists. split; [exact Ht |].
  apply boundary_on_line; [exact Hwf |].
  rewrite dot_lerp. fold gp gq. field. lra.
Qed.

(** ** The incremental solver *)

Lemma feasible_app (l1 l2 : list Line) (q : Vector2) :
  feasible (l1 ++ l2) q <-> feasible l1 q /\ feasible l2 q.
Proof. unfold feasible. apply Forall_app. Qed.

Lemma feasible_snoc (pre : list Line) (line : Line) (q : Vector2) :
  feasible (pre ++ [line]) q <-> feasible pre q /\ satisfies line q.
Proof.
  rewrite feasible_app. unfold feasible. split.
  - intros [H1 H2]. inversion H2; subst. tauto.
  - intros [H1 H2]. split; [exact H1 |]. constructor; [exact H2 | constructor].
Qed.

Lemma in_interval_full (s : R) : in_interval NegInf PosInf s.
Proof. split; [apply ele_NegInf | apply ele_PosInf]. Qed.

Lemma proper_bounds_full : proper_bounds NegInf PosInf.
Proof. repeat split; [apply ele_NegInf | discriminate | discriminate]. Qed.

(** Any point of the old region that the new line accepts gives an offset
    on the new boundary that all the old lines accept. *)
Lemma crossing_offset (pre : list Line) (line : Line) (target p q : Vector2) :
  Line_wf line -> feasible pre p -> ~ satisfies line p ->
  feasible pre q -> satisfies line q ->
  exists s, all_satisfied_at line pre s
            /\ (dist_sq target p <= dist_sq target q ->
                dist_sq target (on_line line s) <= dist_sq target q).
Proof.
  intros Hwf Hp Hviol Hq Hsat.
  destruct (segment_crosses line p q Hwf Hviol Hsat) as (t & s & Ht & E).
  exists s. split.
  - unfold all_satisfied_at. rewrite <- E. apply feasible_lerp; assumption.
  - intros Hle. rewrite <- E. apply dist_sq_lerp; assumption.
Qed.

(** The step taken when the running optimum violates the new line. *)
Lemma violated_step (pre : list Line) (line : Line) (target p : Vector2) :
  Line_wf line -> optimum pre target p -> ~ satisfies line p ->
  solver_post (pre ++ [line]) target
    ('(left_dist, right_dist) <- line_halfplane_intersect line pre ;;
     point_line_project line target left_dist right_dist).
Proof.
  intros Hwf [Hfeas Hopt] Hviol. unfold line_halfplane_intersect.
  pose proof (line_halfplane_intersect_loop_spec line pre NegInf PosInf) as Hspec.
  pose proof (line_halfplane_intersect_loop_bounds line pre NegInf PosInf) as Hb.
  destruct (line_halfplane_intersect_loop line pre NegInf PosInf)
    as [[lo hi] | e |]; simpl in *; [| | exact Hspec].
  - specialize (Hb lo hi proper_bounds_full eq_refl).
    unfold point_line_project.
    set (proj := dot (target - point line) (perp (direction line))).
    destruct (clip_in_interval proj lo hi Hb) as (c & Ec & Hc & Hmin).
    rewrite Ec. simpl. fold (on_line line c). split.
    + apply feasible_snoc. split.
      * apply Hspec in Hc. apply Hc.
      * unfold satisfies. rewrite on_line_boundary. lra.
    + intros q Hq. apply feasible_snoc in Hq. destruct Hq as [Hq Hsat].
      destruct (crossing_offset pre line target p q Hwf Hfeas Hviol Hq Hsat)
        as (s & Hs & Hle).
      specialize (Hle (Hopt q Hq)).
      assert (Hin : in_interval lo hi s).
      { apply Hspec. split; [apply in_interval_full | exact Hs]. }
      specialize (Hmin s Hin).
      rewrite (dist_sq_on_line line target c Hwf).
      rewrite (dist_sq_on_line line target s Hwf) in Hle.
      fold proj in Hle |- *. lra.
  - destruct Hspec as [He Hno]. split; [exact He |].
    intros q Hq. apply feasible_snoc in Hq. destruct Hq as [Hq Hsat].
    destruct (crossing_offset pre line target p q Hwf Hfeas Hviol Hq Hsat)
      as (s & Hs & _).
    apply (Hno s). split; [apply in_interval_full | exact Hs].
Qed.

Lemma firstn_length_app {A : Type} (pre rest : list A) :
  firstn (length pre) (pre ++ rest) = pre.
Proof.
  induction pre as [| a pre IH]; simpl.
  - reflexivity.
  - rewrite IH. reflexivity.
Qed.

Lemma snoc_app {A : Type} (pre : list A) (a : A) (rest : list A) :
  pre ++ a :: rest = (pre ++ [a]) ++ rest.
Proof. rewrite <- app_assoc. reflexivity. Qed.

Lemma halfplane_optimize_loop_spec (target : Vector2) (rest : list Line) :
  forall pre p,
    Forall Line_wf rest -> optimum pre target p ->
    solver_post (pre ++ rest) target
      (halfplane_optimize_loop (pre ++ rest) target (length pre) rest p).
Proof.
  induction rest as [| line rest IH]; intros pre p Hwf Hopt.
  - simpl. rewrite app_nil_r. exact Hopt.
  - inversion Hwf as [| ? ? Hline Hrest]; subst.
    cbn [halfplane_optimize_loop].
    rewrite firstn_length_app.
    rewrite (snoc_app pre line rest).
    replace (S (length pre)) with (length (pre ++ [line]))
      by (rewrite last_length; reflexivity).
    destruct (Rge_dec (dot (p - point line) (direction line)) 0) as [Hsat | Hviol].
    + apply IH; [exact Hrest |]. destruct Hopt as [Hf Ho]. split.
      * apply feasible_snoc. split; assumption.
      * intros q Hq. apply feasible_snoc in Hq. apply Ho. tauto.
    + pose proof (violated_step pre line target p Hline Hopt Hviol) as Hstep.
      destruct (line_halfplane_intersect line pre) as [[lo hi] | e |];
        simpl in *; [| | exact Hstep].
      * destruct (point_line_project line target lo hi) as [p' | e |];
          simpl in *; [| | exact Hstep].
        -- apply IH; assumption.
        -- destruct Hstep as [He Hno]. split; [exact He |].
           intros q Hq. rewrite feasible_app in Hq. apply (Hno q). tauto.
      * destruct Hstep as [He Hno]. split; [exact He |].
        intros q Hq. rewrite feasible_app in Hq. apply (Hno q). tauto.
Qed.

Lemma optimum_start (target : Vector2) : optimum [] target target.
Proof.
  split; [constructor |]. intros q _.
  replace (dist_sq target target) with 0
    by (unfold dist_sq, norm_sq, dot, vsub; simpl; ring).
  apply dist_sq_nonneg.
Qed.

Lemma halfplane_optimize_spec (lines : list Line) (target : Vector2) :
  Forall Line_wf lines ->
  solver_post lines target (halfplane_optimize lines target).
Proof.
  intros Hwf.
  exact (halfplane_optimize_loop_spec target lines [] target Hwf
           (optimum_start target)).
Qed.

(** A closest point of a convex region is unique. *)
Lemma optimum_unique (lines : list Line) (target p q : Vector2) :
  optimum lines target p -> optimum lines target q -> p = q.
Proof.
  intros [Hp Hpo] [Hq Hqo].
  assert (Hm : feasible lines (lerp p q (1 / 2)))
    by (apply feasible_lerp; [lra | assumption | assumption]).
  pose proof (Hpo _ Hm) as H1. pose proof (Hqo _ Hm) as H2.
  rewrite dist_sq_lerp_eq in H1, H2.
  assert (Hz : dist_sq p q <= 0) by lra.
  unfold dist_sq, norm_sq, dot, vsub in Hz. simpl in Hz.
  pose proof (Rle_0_sqr (vx q - vx p)) as Hx.
  pose proof (Rle_0_sqr (vy q - vy p)) as Hy.
  unfold Rsqr in Hx, Hy.
  apply vec2_eq.
  - assert (E : (vx q - vx p) * (vx q - vx p) = 0) by lra.
    apply Rmult_integral in E. lra.
  - assert (E : (vy q - vy p) * (vy q - vy p) = 0) by lra.
    apply Rmult_integral in E. lra.
Qed.

(** ** Normalisation and the constructor of [Line] *)

Lemma norm_sq_nonneg (x : Vector2) : 0 <= norm_sq x.
Proof. unfold norm_sq, dot; nra. Qed.

Lemma norm_zero_iff (x : Vector2) : norm x = 0 <-> norm_sq x = 0.
Proof.
  unfold norm. split.
  - intros H. apply sqrt_eq_0; [apply norm_sq_nonneg | exact H].
  - intros ->. apply sqrt_0.
Qed.

Lemma norm_sq_vquot (x : Vector2) (c : R) :
  c <> 0 -> norm_sq (vquot x c) = norm_sq x / (c * c).
Proof. intros Hc. unfold norm_sq, dot, vquot; simpl. field. exact Hc. Qed.

Lemma normalized_ok (x : Vector2) :
  norm_sq x > 0 ->
  normalized x = Ok (vquot x (norm x)) /\ norm_sq (vquot x (norm x)) = 1.
Proof.
  intros Hpos. unfold normalized, norm.
  destruct (Rgt_dec (norm_sq x) 0) as [_ | H]; [| contradiction].
  split; [reflexivity |].
  assert (Hs : sqrt (norm_sq x) <> 0).
  { intros E. apply sqrt_eq_0 in E; lra. }
  rewrite norm_sq_vquot by exact Hs.
  rewrite sqrt_sqrt by lra. field. lra.
Qed.

Lemma normalized_wf (x d : Vector2) : normalized x = Ok d -> norm_sq d = 1.
Proof.
  unfold normalized.
  destruct (Rgt_dec (norm_sq x) 0) as [Hpos | _]; [| discriminate].
  intros E. injection E as <-. apply (normalized_ok x Hpos).
Qed.

(** A unit vector is its own normalisation. *)
Lemma normalized_unit (n : Vector2) : norm_sq n = 1 -> normalized n = Ok n.
Proof.
  intros Hn. unfold normalized. rewrite Hn.
  destruct (Rgt_dec 1 0) as [_ | H]; [| lra].
  rewrite sqrt_1. f_equal. apply vec2_eq; unfold vquot; simpl; field.
Qed.

Lemma Line_init_wf (pt dir : Vector2) (l : Line) :
  Line_init pt dir = Ok l -> point l = pt /\ Line_wf l.
Proof.
  unfold Line_init.
  destruct (normalized dir) as [d | e |] eqn:E; simpl; try discriminate.
  intros H. injection H as <-. simpl. split; [reflexivity |].
  exact (normalized_wf dir d E).
Qed.

(** A record is a [Line] object exactly when its direction is a unit
    vector: such records are the values that [Line_init] returns. *)
Lemma Line_wf_iff_built (l : Line) :
  Line_wf l <-> exists pt dir, Line_init pt dir = Ok l.
Proof.
  split.
  - intros H. exists (point l), (direction l).
    unfold Line_init. rewrite (normalized_unit _ H). simpl.
    destruct l; reflexivity.
  - intros (pt & dir & E). apply (Line_init_wf pt dir l E).
Qed.

(** ** The avoidance velocity *)

Lemma vneg_vsub (a b : Vector2) : (- (a - b))%V = (b - a)%V.
Proof. apply vec2_eq; simpl; ring. Qed.

Lemma vquot_vscale (a : Vector2) (r c : R) :
  vquot (vscale a r) c = vscale a (r / c).
Proof. unfold vquot, vscale; simpl. apply vec2_eq; simpl; unfold Rdiv; ring. Qed.

Lemma norm_sq_perp (a : Vector2) : norm_sq (perp a) = norm_sq a.
Proof. unfold norm_sq, dot, perp; simpl; ring. Qed.

Lemma vdiv_ok (a : Vector2) (c : R) : c <> 0 -> vdiv a c = Ok (vquot a c).
Proof. intros H. unfold vdiv. destruct (Req_dec_T c 0); [contradiction | reflexivity]. Qed.

Lemma fdiv_ok (p q : R) : q <> 0 -> fdiv p q = Ok (p / q).
Proof. intros H. unfold fdiv. destruct (Req_dec_T q 0); [contradiction | reflexivity]. Qed.

(** ** The solver on targets that are already feasible *)

Lemma halfplane_optimize_loop_noop (lines : list Line) (target : Vector2)
    (rest : list Line) :
  feasible rest target ->
  forall i, halfplane_optimize_loop lines target i rest target = Ok target.
Proof.
  unfold feasible. intros H.
  induction H as [| line rest Hline _ IH]; intros i; simpl.
  - reflexivity.
  - destruct (Rge_dec _ 0) as [_ | Hn]; [apply IH |].
    exfalso. apply Hn. exact Hline.
Qed.

(** ** Reordering the constraints *)

Lemma feasible_perm (l l' : list Line) (q : Vector2) :
  Permutation l l' -> feasible l q -> feasible l' q.
Proof. unfold feasible. intros HP. apply Permutation_Forall. exact HP. Qed.

Lemma optimum_perm (l l' : list Line) (target p : Vector2) :
  Permutation l l' -> optimum l target p -> optimum l' target p.
Proof.
  intros HP [Hf Ho]. split.
  - exact (feasible_perm l l' p HP Hf).
  - intros q Hq. apply Ho.
    exact (feasible_perm l' l q (Permutation_sym HP) Hq).
Qed.

Lemma halfplane_optimize_feasible (lines : list Line) (target : Vector2) :
  Forall Line_wf lines -> (exists q, feasible lines q) ->
  exists p, halfplane_optimize lines target = Ok p /\ optimum lines target p.
Proof.
  intros Hwf [q Hq].
  pose proof (halfplane_optimize_spec lines target Hwf) as H.
  destruct (halfplane_optimize lines target) as [p | e |]; simpl in H.
  - exists p. auto.
  - destruct H as [_ Hno]. destruct (Hno q Hq).
  - destruct H.
Qed.

(** ** Facts about the concrete inputs *)






(** ** Reads leave the store alone *)

Lemma line_halfplane_intersect_loop_run (line : ref) (others : list ref)
    (s : store) :
  forall lo hi,
    Heap.line_halfplane_intersect_loop line others lo hi s
    = (line_halfplane_intersect_loop (line_at s line)
         (map (line_at s) others) lo hi, s).
Proof.
  induction others as [| prev rest IH]; intros lo hi; simpl.
  - reflexivity.
  - unfold bind_prog, Heap.get_direction, Heap.get_point. simpl.
    destruct (Req_dec_T _ 0).
    + destruct (Rlt_dec _ 0); [reflexivity | apply IH].
    + destruct (Rgt_dec _ 0).
      * destruct (elt_dec _ lo); [reflexivity | apply IH].
      * destruct (elt_dec hi _); [reflexivity | apply IH].
Qed.

Lemma line_halfplane_intersect_run (line : ref) (others : list ref) (s : store) :
  Heap.line_halfplane_intersect line others s
  = (line_halfplane_intersect (line_at s line) (map (line_at s) others), s).
Proof. apply line_halfplane_intersect_loop_run. Qed.

Lemma point_line_project_run (line : ref) (pt : Vector2) (lo hi : ereal)
    (s : store) :
  Heap.point_line_project line pt lo hi s
  = (point_line_project (line_at s line) pt lo hi, s).
Proof.
  unfold Heap.point_line_project, point_line_project, bind_prog,
    Heap.get_direction, Heap.get_point. simpl.
  destruct (clip _ lo hi); reflexivity.
Qed.

Lemma halfplane_optimize_loop_run (lines : ref) (target : Vector2) (s : store)
    (rest : list ref) :
  forall i pt,
    Heap.halfplane_optimize_loop lines target i rest pt s
    = (halfplane_optimize_loop (map (line_at s) (list_at s lines)) target i
         (map (line_at s) rest) pt, s).
Proof.
  induction rest as [| line rest IH]; intros i pt; simpl.
  - reflexivity.
  - unfold bind_prog at 1 2. unfold Heap.get_point at 1, Heap.get_direction at 1.
    simpl.
    destruct (Rge_dec _ 0); [apply IH |].
    unfold bind_prog at 1. unfold get_items at 1.
    unfold bind_prog at 1. rewrite line_halfplane_intersect_run.
    rewrite firstn_map.
    destruct (line_halfplane_intersect (line_at s line)
                (map (line_at s) (firstn i (list_at s lines))))
      as [[lo hi] | e |]; simpl; try reflexivity.
    unfold bind_prog at 1. rewrite point_line_project_run.
    destruct (point_line_project (line_at s line) target lo hi); simpl;
      try reflexivity.
    apply IH.
Qed.

Lemma halfplane_optimize_run (lines : ref) (target : Vector2) (s : store) :
  Heap.halfplane_optimize lines target s
  = (halfplane_optimize (map (line_at s) (list_at s lines)) target, s).
Proof.
  unfold Heap.halfplane_optimize, bind_prog, get_items.
  apply halfplane_optimize_loop_run.
Qed.

Lemma get_avoidance_velocity_run (agent collider : ref) (t dt : R) (s : store) :
  Heap.get_avoidance_velocity agent collider t dt s
  = (get_avoidance_velocity (agent_at s agent) (agent_at s collider) t dt, s).
Proof. reflexivity. Qed.

(** ** The loop of [orca] writes to new objects only *)

Lemma upd_same {A : Type} (f : ref -> A) (r : ref) (a : A) : upd f r a r = a.
Proof. unfold upd. rewrite Nat.eqb_refl. reflexivity. Qed.

Lemma upd_other {A : Type} (f : ref -> A) (r r' : ref) (a : A) :
  r' <> r -> upd f r a r' = f r'.
Proof.
  intros H. unfold upd. destruct (Nat.eqb_spec r' r); [contradiction | reflexivity].
Qed.

Lemma map_upd_below {A : Type} (f : ref -> A) (n : ref) (a : A) (rs : list ref) :
  Forall (fun r => (r < n)%nat) rs -> map (upd f n a) rs = map f rs.
Proof.
  intros H. induction H as [| r rs Hr _ IH]; simpl.
  - reflexivity.
  - rewrite IH, upd_other by (intros ->; apply (Nat.lt_irrefl _ Hr)).
    reflexivity.
Qed.

Lemma loop_frame_step (lines : ref) (l : Line) (s s' : store) :
  (lines < next s)%nat ->
  loop_frame lines
    (Build_store (agent_at s) (upd (line_at s) (next s) l)
       (upd (list_at s) lines (list_at s lines ++ [next s])) (S (next s))) s' ->
  loop_frame lines s s'.
Proof.
  intros HL (Ha & Hn & Hl & Hls & Hin). simpl in *.
  repeat split.
  - exact Ha.
  - apply Nat.le_trans with (S (next s)); [apply Nat.le_succ_diag_r | exact Hn].
  - intros r Hr. rewrite Hl by (apply Nat.lt_lt_succ_r; exact Hr).
    apply upd_other. intros ->. apply (Nat.lt_irrefl _ Hr).
  - intros r Hr. rewrite Hls by exact Hr. apply upd_other. exact Hr.
  - exact Hin.
Qed.

Lemma orca_loop_run (agent : ref) (t dt : R) (lines : ref)
    (colliders : list ref) :
  forall s res s',
    (lines < next s)%nat ->
    Forall (fun r => (r < next s)%nat) (list_at s lines) ->
    Heap.orca_loop agent colliders t dt lines s = (res, s') ->
    loop_frame lines s s'
    /\ orca_loop (agent_at s agent) (map (agent_at s) colliders) t dt
         (map (line_at s) (list_at s lines))
       = match res with
         | Ok _ => Ok (map (line_at s') (list_at s' lines))
         | Raise e => Raise e
         | NonFinite => NonFinite
         end.
Proof.
  induction colliders as [| collider rest IH]; intros s res s' HL Hin; simpl.
  - unfold ret. intros E. injection E as <- <-.
    split; [| reflexivity].
    repeat split; auto.
  - unfold bind_prog at 1. rewrite get_avoidance_velocity_run.
    destruct (get_avoidance_velocity (agent_at s agent) (agent_at s collider) t dt)
      as [[dv n] | e |]; simpl.
    + unfold bind_prog at 1. unfold get_agent at 1.
      unfold bind_prog at 1. unfold Heap.Line_init, Line_init.
      unfold bind_prog at 1. unfold lift.
      destruct (normalized n) as [d | e |]; simpl.
      * unfold bind_prog at 1. unfold append at 1. simpl.
        set (l := Build_Line (velocity (agent_at s agent) + vquot dv 2)%V d).
        intros E. apply IH in E; simpl.
        -- destruct E as [Hf Hp]. split.
           ++ apply (loop_frame_step lines l); assumption.
           ++ simpl in Hp. rewrite upd_same in Hp.
              rewrite map_app in Hp. simpl in Hp. rewrite upd_same in Hp.
              rewrite map_upd_below in Hp by exact Hin.
              exact Hp.
        -- apply Nat.lt_lt_succ_r. exact HL.
        -- rewrite upd_same. apply Forall_app. split.
           ++ eapply Forall_impl; [| exact Hin].
              intros r Hr. apply Nat.lt_lt_succ_r. exact Hr.
           ++ constructor; [apply Nat.lt_succ_diag_r | constructor].
      * intros E. injection E as <- <-. split; [| reflexivity].
        repeat split; auto.
      * intros E. injection E as <- <-. split; [| reflexivity].
        repeat split; auto.
    + intros E. injection E as <- <-. split; [| reflexivity].
      repeat split; auto.
    + intros E. injection E as <- <-. split; [| reflexivity].
      repeat split; auto.
Qed.

(** ** Runs on concrete inputs *)

Example line_halfplane_intersect_crossing :
  exists hi, line_halfplane_intersect line_x_ge_0 [line_y_ge_0]
             = Ok (NegInf, Fin hi) /\ hi = 0.
Proof.
  eexists. unfold line_halfplane_intersect. simpl. decide_tests.
  split; [reflexivity | lra].
Qed.

Example halfplane_optimize_corner :
  exists p, halfplane_optimize [line_x_ge_0; line_y_ge_0] (vec2 (-1) (-2)) = Ok p
            /\ vx p = 0 /\ vy p = 0.
Proof.
  eexists. unfold halfplane_optimize. simpl. decide_tests.
  split; [reflexivity | simpl; lra].
Qed.

Example get_avoidance_velocity_overlap :
  get_avoidance_velocity agent_a agent_b 5 1 = Ok (vec2 (-1) 0, vec2 (-1) 0).
Proof.
  unfold get_avoidance_velocity, agent_a, agent_b, vdiv. simpl.
  decide_tests;
    match goal with
    | |- context [normalized ?w] =>
        replace w with (vec2 (-1) 0) by (apply vec2_eq; simpl; lra)
    end;
    rewrite normalized_unit by (unfold_vectors; lra);
    simpl; decide_tests;
    f_equal; f_equal; apply vec2_eq; simpl; lra.
Qed.

Example orca_overlap :
  orca agent_a [agent_b] 5 1
  = Ok (vec2 (-1 / 2) 0, [Build_Line (vec2 (-1 / 2) 0) (vec2 (-1) 0)]).
Proof.
  unfold orca. simpl. rewrite get_avoidance_velocity_overlap. simpl.
  unfold Line_init. rewrite normalized_unit by (unfold_vectors; lra). simpl.
  replace (vec2 0 0 + vquot (vec2 (-1) 0) 2)%V with (vec2 (-1 / 2) 0)
    by (apply vec2_eq; simpl; lra).
  unfold agent_a. simpl.
  decide_tests; f_equal; f_equal; apply vec2_eq; simpl; lra.
Qed.

(** ** The layout check of pyorca.py *)

Lemma pyorca_layout_refused :
  check_layout [0%nat] false pyorca_layout = Some (133%nat, UnexpectedIndent).
Proof. reflexivity. Qed.

Lemma pyorca_layout_aligned :
  check_layout [0%nat] false (realign 133 12 pyorca_layout) = None.
Proof. reflexivity. Qed.

Lemma import_pyorca_refused {A : Type} (body : A) :
  import_pyorca body = IndentationError 133 UnexpectedIndent.
Proof. reflexivity. Qed.

(** ** Two lines in exact arithmetic *)




(** ** pyorca.py with line 133 aligned *)

Lemma side_leg_aligned (agent collider : Agent) (tau dt : R) :
  let x := (position collider - position agent)%V in
  let v := (velocity agent - velocity collider)%V in
  let r := radius agent + radius collider in
  let d2 := norm_sq x in
  let c := vscale (vquot x tau) (1 - r * r / d2) in
  tau <> 0 -> d2 <> 0 ->
  d2 >= r * r ->
  dot (v - c) c >= 0 ->
  let leg := sqrt (d2 - r * r) in
  let sine := copysign r (det v x) in
  let rotated_x := vquot (vec2 (leg * vx x + sine * vy x)
                               (- sine * vx x + leg * vy x)) d2 in
  let n := if Rlt_dec sine 0 then (- perp rotated_x)%V else perp rotated_x in
  let u := (vscale rotated_x (dot v rotated_x) - v)%V in
  get_avoidance_velocity agent collider tau dt = Ok (u, n).
Proof.
  intros x v r d2 c Htau Hd2 Hge Hside leg sine rotated_x n u.
  unfold get_avoidance_velocity. rewrite vneg_vsub. fold x v r d2.
  destruct (Rge_dec d2 (r * r)) as [_ | H]; [| contradiction].
  rewrite (vdiv_ok x tau Htau). simpl.
  rewrite (fdiv_ok (r * r) d2 Hd2). simpl. fold c.
  destruct (Rlt_dec (dot (v - c) c) 0) as [H | _]; [lra |].
  fold leg sine. rewrite (vdiv_ok _ d2 Hd2). simpl. reflexivity.
Qed.

Example get_avoidance_velocity_side_leg :
  get_avoidance_velocity agent_s agent_t 1 (1 / 4)
  = Ok (vec2 (- 24 / 25) (32 / 25), vec2 (- 3 / 5) (4 / 5)).
Proof.
  assert (Ex : (position agent_t - position agent_s)%V = vec2 5 0)
    by (apply vec2_eq; simpl; lra).
  assert (Ev : (velocity agent_s - velocity agent_t)%V = vec2 4 1)
    by (apply vec2_eq; simpl; lra).
  assert (Er : radius agent_s + radius agent_t = 3) by (simpl; lra).
  assert (Ed : norm_sq (vec2 5 0) = 25) by (unfold norm_sq, dot; simpl; lra).
  rewrite (side_leg_aligned agent_s agent_t 1 (1 / 4));
    rewrite ?Ex, ?Ev, ?Er, ?Ed; try lra.
  - assert (Eleg : sqrt (25 - 3 * 3) = 4).
    { replace (25 - 3 * 3) with (4 * 4) by lra. apply sqrt_square. lra. }
    assert (Esine : copysign 3 (det (vec2 4 1) (vec2 5 0)) = - 3).
    { unfold copysign, det. simpl.
      destruct (Rlt_dec (4 * 0 - 1 * 5) 0) as [_ | H]; [| lra].
      rewrite Rabs_pos_eq by lra. reflexivity. }
    rewrite Eleg, Esine.
    destruct (Rlt_dec (- 3) 0) as [_ | H]; [| lra].
    f_equal. f_equal; apply vec2_eq; unfold dot; simpl; lra.
  - unfold dot, vsub, vscale, vquot. simpl. lra.
Qed.

Lemma overlapping_aligned (agent collider : Agent) (tau dt : R) :
  let x := (position collider - position agent)%V in
  let v := (velocity agent - velocity collider)%V in
  let r := radius agent + radius collider in
  norm_sq x < r * r ->
  get_avoidance_velocity agent collider tau dt = avoidance_overlapping x v r dt.
Proof.
  intros x v r Hlt.
  unfold get_avoidance_velocity, avoidance_overlapping.
  rewrite vneg_vsub. fold x v r.
  destruct (Rge_dec (norm_sq x) (r * r)) as [Hge | _]; [lra |].
  unfold vdiv, fdiv.
  destruct (Req_dec_T dt 0) as [Hz | Hnz]; simpl; [reflexivity |].
  destruct (normalized (v - vquot x dt)%V) as [nw | e |]; simpl;
    try reflexivity.
  destruct (Req_dec_T dt 0) as [Hz | _]; [contradiction |]. simpl.
  rewrite vquot_vscale. reflexivity.
Qed.

(** ** Infeasibility in exact arithmetic *)




(** * The claims *)

(** C1. For a list of Lines with a nonempty half-plane intersection and any
    target, [halfplane_optimize] does not fail and returns the point of the
    intersection closest to the target: the point satisfies
    [dot (p - anchor) direction >= 0] for every line of the list, no point
    of the intersection is nearer to the target, and any that is as near
    is the point itself. *)
Theorem halfplane_optimize_closest (lines : list Line) (target : Vector2) :
  Forall Line_wf lines ->
  (exists q, feasible lines q) ->
  exists p,
    halfplane_optimize lines target = Ok p
    /\ (forall l, In l lines -> dot (p - point l) (direction l) >= 0)
    /\ (forall q, feasible lines q -> norm (p - target) <= norm (q - target))
    /\ (forall q, feasible lines q ->
                  norm (q - target) <= norm (p - target) -> q = p).
Proof.
  intros Hwf Hne.
  destruct (halfplane_optimize_feasible lines target Hwf Hne)
    as (p & E & Hf & Ho).
  exists p. split; [exact E |]. split; [| split].
  - intros l Hl. unfold feasible in Hf. rewrite Forall_forall in Hf.
    exact (Hf l Hl).
  - intros q Hq. unfold norm. apply sqrt_le_1_alt. exact (Ho q Hq).
  - intros q Hq Hle. apply (optimum_unique lines target).
    + split; [exact Hq |]. intros q' Hq'.
      apply Rle_trans with (dist_sq target p); [| exact (Ho q' Hq')].
      apply sqrt_le_0; [apply dist_sq_nonneg | apply dist_sq_nonneg |].
      exact Hle.
    + split; assumption.
Qed.

Lemma halfplane_optimize_closest_witness :
  exists p,
    halfplane_optimize [line_x_ge_0; line_y_ge_0] (vec2 (-1) (-2)) = Ok p
    /\ (forall l, In l [line_x_ge_0; line_y_ge_0] ->
                  dot (p - point l) (direction l) >= 0)
    /\ (forall q, feasible [line_x_ge_0; line_y_ge_0] q ->
                  norm (p - vec2 (-1) (-2)) <= norm (q - vec2 (-1) (-2)))
    /\ (forall q, feasible [line_x_ge_0; line_y_ge_0] q ->
                  norm (q - vec2 (-1) (-2)) <= norm (p - vec2 (-1) (-2)) ->
                  q = p).
Proof.
  apply halfplane_optimize_closest.
  - repeat constructor; unfold Line_wf, norm_sq, dot; simpl; lra.
  - exists (vec2 0 0).
    repeat constructor; unfold satisfies, dot, vsub; simpl; lra.
Defined.


(** C3. For a fixed set of Lines with a nonempty intersection and a fixed
    target, [halfplane_optimize] returns the same point for every
    permutation of the lines. *)
Theorem halfplane_optimize_order_independent
    (lines lines' : list Line) (target : Vector2) :
  Forall Line_wf lines ->
  (exists q, feasible lines q) ->
  Permutation lines lines' ->
  exists p,
    halfplane_optimize lines target = Ok p
    /\ halfplane_optimize lines' target = Ok p.
Proof.
  intros Hwf [q Hq] HP.
  destruct (halfplane_optimize_feasible lines target Hwf (ex_intro _ q Hq))
    as (p & E & Hopt).
  assert (Hwf' : Forall Line_wf lines')
    by (exact (Permutation_Forall HP Hwf)).
  assert (Hq' : feasible lines' q) by (exact (feasible_perm _ _ q HP Hq)).
  destruct (halfplane_optimize_feasible lines' target Hwf' (ex_intro _ q Hq'))
    as (p' & E' & Hopt').
  exists p. split; [exact E |]. rewrite E'. f_equal.
  apply (optimum_unique lines' target).
  - exact Hopt'.
  - exact (optimum_perm _ _ _ _ HP Hopt).
Qed.

Lemma halfplane_optimize_order_independent_witness :
  exists p,
    halfplane_optimize [line_x_ge_0; line_y_ge_0] (vec2 (-1) (-2)) = Ok p
    /\ halfplane_optimize [line_y_ge_0; line_x_ge_0] (vec2 (-1) (-2)) = Ok p.
Proof.
  apply halfplane_optimize_order_independent.
  - repeat constructor; unfold Line_wf, norm_sq, dot; simpl; lra.
  - exists (vec2 0 0).
    repeat constructor; unfold satisfies, dot, vsub; simpl; lra.
  - apply perm_swap.
Defined.

(** C4. The side-leg computation is lines 122 to 139 of [pyorca.py].  Its
    statement [n = perp(rotated_x)], line 133, stands at column 16 under
    the statement of line 132 at column 12, which opens no block: the
    compiler refuses the module there with "unexpected indent", and with
    that one line at column 12 it accepts the file.  So no call of
    [get_avoidance_velocity] returns, whatever its arguments.  With the
    line aligned, the body does what the claim says of a leg region: for
    two disks of radius 3/2 five units apart and the relative velocity
    [(4, 1)] it returns [leg = 4], [sine = -3], [rotated_x = (4/5, 3/5)],
    [n = -perp(rotated_x)] and [u = rotated_x * dot(v, rotated_x) - v]. *)
Theorem side_leg_unexpected_indent :
  check_layout [0%nat] false pyorca_layout = Some (133%nat, UnexpectedIndent)
  /\ check_layout [0%nat] false (realign 133 12 pyorca_layout) = None
  /\ (forall agent collider tau dt,
         call_get_avoidance_velocity agent collider tau dt
         = IndentationError 133 UnexpectedIndent)
  /\ get_avoidance_velocity agent_s agent_t 1 (1 / 4)
     = Ok (vec2 (- 24 / 25) (32 / 25), vec2 (- 3 / 5) (4 / 5)).
Proof.
  split; [exact pyorca_layout_refused |].
  split; [exact pyorca_layout_aligned |].
  split; [intros; apply import_pyorca_refused |].
  exact get_avoidance_velocity_side_leg.
Qed.

(** C5. For the overlapping pair of two unit disks one unit apart, at
    rest, with [tau = 5] and [dt = 1], the call of
    [get_avoidance_velocity] ends in the [IndentationError] of the import
    and returns nothing.  With line 133 aligned the body returns what the
    claim says: [w = v - x/dt = (-1, 0)], [n = normalized(w) = (-1, 0)],
    [u = n * (r/dt) - w = (-1, 0)], whatever the horizon is. *)
Theorem overlapping_pair_not_compiled :
  call_get_avoidance_velocity agent_a agent_b 5 1
  = IndentationError 133 UnexpectedIndent
  /\ get_avoidance_velocity agent_a agent_b 5 1
     = Ok (vec2 (- 1) 0, vec2 (- 1) 0)
  /\ forall tau,
       get_avoidance_velocity agent_a agent_b tau 1
       = get_avoidance_velocity agent_a agent_b 5 1.
Proof.
  split; [apply import_pyorca_refused |].
  split; [exact get_avoidance_velocity_overlap |].
  assert (H : norm_sq (position agent_b - position agent_a)%V
              < (radius agent_a + radius agent_b)
                * (radius agent_a + radius agent_b))
    by (unfold agent_a, agent_b; unfold_vectors; simpl; lra).
  intros tau.
  rewrite (overlapping_aligned agent_a agent_b tau 1 H).
  rewrite (overlapping_aligned agent_a agent_b 5 1 H). reflexivity.
Qed.

(** C6. [orca] is lines 50 to 59 of the same module, so that no call of
    it returns either: the import ends in the [IndentationError] of line
    133.  With that line aligned, [orca] on an empty neighbor list returns
    the preferred velocity and an empty list, and for the overlapping pair
    above one Line with anchor [velocity + u/2] and direction [n]. *)
Theorem orca_not_compiled :
  (forall agent neighbors tau dt,
      call_orca agent neighbors tau dt
      = IndentationError 133 UnexpectedIndent)
  /\ (forall agent tau dt, orca agent [] tau dt = Ok (pref_velocity agent, []))
  /\ orca agent_a [agent_b] 5 1
     = Ok (vec2 (- 1 / 2) 0, [Build_Line (vec2 (- 1 / 2) 0) (vec2 (- 1) 0)]).
Proof.
  split; [intros; apply import_pyorca_refused |].
  split; [reflexivity |].
  exact orca_overlap.
Qed.

(** C7. If the target satisfies every line of the list, then
    [halfplane_optimize] returns the target itself; so it does on the empty
    list. *)
Theorem halfplane_optimize_noop (lines : list Line) (target : Vector2) :
  (forall l, In l lines -> dot (target - point l) (direction l) >= 0) ->
  halfplane_optimize lines target = Ok target.
Proof.
  intros H. unfold halfplane_optimize.
  apply halfplane_optimize_loop_noop.
  unfold feasible. rewrite Forall_forall. exact H.
Qed.

Lemma halfplane_optimize_noop_witness :
  halfplane_optimize [line_x_ge_0; line_y_ge_0] (vec2 2 3) = Ok (vec2 2 3).
Proof.
  apply halfplane_optimize_noop.
  intros l [<- | [<- | []]]; unfold dot, vsub; simpl; lra.
Defined.

(** C8. In exact arithmetic, constructing [Line(anchor, d)] fails when
    [d] has zero length, and for a [d] whose squared length is in the
    range of the normal numbers of binary64 it succeeds and stores the
    anchor and [d/|d|], of unit norm; [point_line_project],
    [line_halfplane_intersect] and [halfplane_optimize] leave every Line
    of the store as it is. *)
Theorem Line_init_unit_direction :
  (forall anchor d, norm d = 0 -> Line_init anchor d = Raise AssertionError)
  /\ (forall anchor d,
         normal_double (norm_sq d) ->
         exists l, Line_init anchor d = Ok l
                   /\ point l = anchor
                   /\ direction l = vquot d (norm d)
                   /\ norm (direction l) = 1)
  /\ (forall s lines target l,
         line_at (snd (Heap.halfplane_optimize lines target s)) l
         = line_at s l)
  /\ (forall s line others l,
         line_at (snd (Heap.line_halfplane_intersect line others s)) l
         = line_at s l)
  /\ (forall s line pt left_bound right_bound l,
         line_at (snd (Heap.point_line_project line pt left_bound
                         right_bound s)) l
         = line_at s l).
Proof.
  split; [| split; [| split; [| split]]].
  - intros anchor d Hz. apply norm_zero_iff in Hz.
    unfold Line_init, normalized. rewrite Hz.
    destruct (Rgt_dec 0 0) as [H | _]; [lra | reflexivity].
  - intros anchor d [Hlo _].
    assert (Hpos : norm_sq d > 0).
    { assert (0 < / 2 ^ 1022); [| lra].
      apply Rinv_0_lt_compat. apply pow_lt. lra. }
    destruct (normalized_ok d Hpos) as [E Hu].
    exists (Build_Line anchor (vquot d (norm d))).
    unfold Line_init. rewrite E. simpl.
    repeat split. unfold norm at 1. rewrite Hu. apply sqrt_1.
  - intros. rewrite halfplane_optimize_run. reflexivity.
  - intros. rewrite line_halfplane_intersect_run. reflexivity.
  - intros. rewrite point_line_project_run. reflexivity.
Qed.

Lemma normal_double_25 : normal_double 25.
Proof.
  unfold normal_double.
  assert (H1 : 1 <= 2 ^ 1022) by (apply pow_R1_Rle; lra).
  assert (H2 : / 2 ^ 1022 <= 1).
  { rewrite <- Rinv_1. apply Rinv_le_contravar; lra. }
  assert (H3 : 1 <= 2 ^ 52) by (apply pow_R1_Rle; lra).
  assert (H4 : / 2 ^ 52 <= 1).
  { rewrite <- Rinv_1. apply Rinv_le_contravar; lra. }
  assert (H5 : 2 ^ 5 <= 2 ^ 1023) by (apply Rle_pow; [lra | lia]).
  assert (H6 : 2 ^ 5 = 32) by (simpl; lra).
  split; [lra |].
  apply Rle_trans with (1 * 2 ^ 1023); [lra |].
  apply Rmult_le_compat_r; lra.
Qed.

Lemma Line_init_unit_direction_witness :
  exists l, Line_init (vec2 1 2) (vec2 3 4) = Ok l
            /\ point l = vec2 1 2
            /\ direction l = vquot (vec2 3 4) (norm (vec2 3 4))
            /\ norm (direction l) = 1.
Proof.
  apply (proj1 (proj2 Line_init_unit_direction)).
  replace (norm_sq (vec2 3 4)) with 25 by (unfold norm_sq, dot; simpl; lra).
  exact normal_double_25.
Defined.

(** On the numbers of the program the claim fails outside that range.
    In binary64 the square of [(2^600, 0)] overflows: the constructor
    succeeds and stores the direction [(0, 0)], of norm 0.  The square of
    [(2^-600, 0)] underflows to zero: the constructor fails with
    [AssertionError] although the direction is not the zero vector.  On
    64-bit integers the square of [(2^32, 0)] wraps around to 0, and the
    assertion fails as well. *)
Lemma Line_init_out_of_range :
  F64.nonzero F64.huge = true
  /\ F64.Line_init F64.origin F64.huge
     = Ok (F64.Build_Line F64.origin F64.origin)
  /\ F64.norm F64.origin = PrimFloat.zero
  /\ F64.nonzero F64.tiny = true
  /\ F64.Line_init F64.origin F64.tiny = Raise AssertionError
  /\ I64.vx I64.two_pow_32 <> 0%Z
  /\ I64.normalized_assert I64.two_pow_32 = Raise AssertionError.
Proof.
  split; [vm_compute; reflexivity |].
  split; [vm_compute; reflexivity |].
  split; [vm_compute; reflexivity |].
  split; [vm_compute; reflexivity |].
  split; [vm_compute; reflexivity |].
  split; [discriminate | vm_compute; reflexivity].
Qed.

(** C9. No core function mutates its inputs: [point_line_project],
    [line_halfplane_intersect], [halfplane_optimize] and
    [get_avoidance_velocity] leave the whole store as it was; [orca] leaves
    every object that existed before the call as it was (it writes to the
    list and the Lines that it allocates); the outcome of each is the
    outcome of the function on the attributes of its arguments, whatever
    else the store holds. *)
Theorem core_functions_do_not_mutate (s : store) :
  (forall line pt left_bound right_bound,
      Heap.point_line_project line pt left_bound right_bound s
      = (point_line_project (line_at s line) pt left_bound right_bound, s))
  /\ (forall line other_lines,
         Heap.line_halfplane_intersect line other_lines s
         = (line_halfplane_intersect (line_at s line)
              (map (line_at s) other_lines), s))
  /\ (forall lines target,
         Heap.halfplane_optimize lines target s
         = (halfplane_optimize (map (line_at s) (list_at s lines)) target, s))
  /\ (forall agent collider t dt,
         Heap.get_avoidance_velocity agent collider t dt s
         = (get_avoidance_velocity (agent_at s agent) (agent_at s collider)
              t dt, s))
  /\ (forall agent colliding_agents t dt,
         (colliding_agents < next s)%nat ->
         let (res, s') := Heap.orca agent colliding_agents t dt s in
         preserved s s'
         /\ orca (agent_at s agent)
              (map (agent_at s) (list_at s colliding_agents)) t dt
            = match res with
              | Ok (new_vel, lines) =>
                  Ok (new_vel, map (line_at s') (list_at s' lines))
              | Raise e => Raise e
              | NonFinite => NonFinite
              end).
Proof.
  split; [intros; apply point_line_project_run |].
  split; [intros; apply line_halfplane_intersect_run |].
  split; [intros; apply halfplane_optimize_run |].
  split; [intros; apply get_avoidance_velocity_run |].
  intros agent colliding_agents t dt Hold.
  unfold Heap.orca. unfold bind_prog at 1. unfold new_list at 1.
  unfold bind_prog at 1. unfold get_items at 1. simpl.
  rewrite upd_other by (intros ->; apply (Nat.lt_irrefl _ Hold)).
  set (s0 := Build_store (agent_at s) (line_at s)
               (upd (list_at s) (next s) []) (S (next s))).
  unfold bind_prog at 1.
  destruct (Heap.orca_loop agent (list_at s colliding_agents)
              t dt (next s) s0) as [res1 s1] eqn:E.
  apply orca_loop_run in E.
  2: { simpl. apply Nat.lt_succ_diag_r. }
  2: { simpl. rewrite upd_same. constructor. }
  destruct E as [(Ha & Hn & Hl & Hls & Hin) Hp]. simpl in *.
  rewrite upd_same in Hp. simpl in Hp.
  assert (Hpres : preserved s s1).
  { split.
    - apply Nat.le_trans with (S (next s)); [apply Nat.le_succ_diag_r | exact Hn].
    - intros r Hr. repeat split.
      + apply Ha.
      + apply Hl. apply Nat.lt_lt_succ_r. exact Hr.
      + rewrite Hls by (intros ->; apply (Nat.lt_irrefl _ Hr)).
        apply upd_other. intros ->. apply (Nat.lt_irrefl _ Hr). }
  unfold orca. rewrite Hp.
  destruct res1 as [[] | e |]; simpl.
  - unfold bind_prog at 1. unfold get_agent at 1.
    unfold bind_prog at 1. rewrite halfplane_optimize_run. rewrite Ha.
    destruct (halfplane_optimize (map (line_at s1) (list_at s1 (next s)))
                (pref_velocity (agent_at s agent))) as [p | e |]; simpl;
      split; (exact Hpres || reflexivity).
  - split; [exact Hpres | reflexivity].
  - split; [exact Hpres | reflexivity].
Qed.

Lemma core_functions_do_not_mutate_witness :
  let (res, s') := Heap.orca 0%nat 2%nat 5 1 store_ab in
  preserved store_ab s'
  /\ orca (agent_at store_ab 0%nat)
       (map (agent_at store_ab) (list_at store_ab 2%nat)) 5 1
     = match res with
       | Ok (new_vel, lines) =>
           Ok (new_vel, map (line_at s') (list_at s' lines))
       | Raise e => Raise e
       | NonFinite => NonFinite
       end.
Proof.
  apply (proj2 (proj2 (proj2 (proj2 (core_functions_do_not_mutate store_ab))))).
  simpl. apply Nat.lt_succ_diag_r.
Defined.

(** C10. Whenever [line_halfplane_intersect] returns, its result
    [(left, right)] satisfies [left <= right], and the clamp of any
    projected length to it is a finite offset within the bounds. *)
Theorem line_halfplane_intersect_ordered
    (line : Line) (prior_lines : list Line) (left_dist right_dist : ereal) :
  line_halfplane_intersect line prior_lines = Ok (left_dist, right_dist) ->
  ele left_dist right_dist
  /\ forall proj_len,
       exists c, clip (Fin proj_len) left_dist right_dist = Fin c
                 /\ in_interval left_dist right_dist c.
Proof.
  unfold line_halfplane_intersect. intros E.
  pose proof (line_halfplane_intersect_loop_bounds line prior_lines
                NegInf PosInf left_dist right_dist proper_bounds_full E) as Hb.
  split; [apply Hb |].
  intros x. destruct (clip_in_interval x left_dist right_dist Hb)
    as (c & Ec & Hc & _).
  exists c. auto.
Qed.

Lemma line_halfplane_intersect_ordered_witness :
  exists hi,
    ele NegInf (Fin hi)
    /\ forall proj_len,
         exists c, clip (Fin proj_len) NegInf (Fin hi) = Fin c
                   /\ in_interval NegInf (Fin hi) c.
Proof.
  eexists.
  apply (line_halfplane_intersect_ordered line_x_ge_0 [line_y_ge_0]).
  unfold line_halfplane_intersect. simpl. decide_tests. reflexivity.
Defined.

(** * Further properties of the code *)

(** ** The interval on a boundary line *)

(** The bounds of a nonempty interval are determined by its points. *)
Lemma proper_bounds_nonempty (lo hi : ereal) :
  proper_bounds lo hi -> exists s, in_interval lo hi s.
Proof.
  intros H. destruct (clip_in_interval 0 lo hi H) as (c & _ & Hc & _).
  exists c. exact Hc.
Qed.

Lemma in_interval_bounds_eq (lo hi lo' hi' : ereal) :
  proper_bounds lo hi -> proper_bounds lo' hi' ->
  (forall s, in_interval lo hi s <-> in_interval lo' hi' s) ->
  lo = lo' /\ hi = hi'.
Proof.
  unfold proper_bounds, in_interval, ele.
  intros (Hle & Hlo & Hhi) (Hle' & Hlo' & Hhi') Hiff.
  destruct lo as [| a |]; [| | congruence];
    (destruct hi as [| b |]; [congruence | |]);
    (destruct lo' as [| a' |]; [| | congruence]);
    (destruct hi' as [| b' |]; [congruence | |]);
    simpl in *.
  - pose proof (proj1 (Hiff b)) as H1. pose proof (proj2 (Hiff b')) as H2.
    split; [reflexivity |]. f_equal. lra.
  - pose proof (proj2 (Hiff (b + 1))) as H. exfalso. lra.
  - pose proof (proj1 (Hiff (Rmin a' b - 1))) as H.
    pose proof (Rmin_l a' b). pose proof (Rmin_r a' b). exfalso. lra.
  - pose proof (proj1 (Hiff (Rmin a' b - 1))) as H.
    pose proof (Rmin_l a' b). pose proof (Rmin_r a' b). exfalso. lra.
  - pose proof (proj1 (Hiff (b' + 1))) as H. exfalso. lra.
  - split; reflexivity.
  - pose proof (proj1 (Hiff (a' - 1))) as H. exfalso. lra.
  - pose proof (proj1 (Hiff (a' - 1))) as H. exfalso. lra.
  - pose proof (proj2 (Hiff (Rmin a b' - 1))) as H.
    pose proof (Rmin_l a b'). pose proof (Rmin_r a b'). exfalso. lra.
  - pose proof (proj2 (Hiff (a - 1))) as H. exfalso. lra.
  - pose proof (proj1 (Hiff a)) as H1. pose proof (proj2 (Hiff a')) as H2.
    pose proof (proj1 (Hiff b)) as H3. pose proof (proj2 (Hiff b')) as H4.
    split; f_equal; lra.
  - pose proof (proj2 (Hiff (Rmax a' b + 1))) as H.
    pose proof (Rmax_l a' b). pose proof (Rmax_r a' b). exfalso. lra.
  - pose proof (proj2 (Hiff (Rmin a b' - 1))) as H.
    pose proof (Rmin_l a b'). pose proof (Rmin_r a b'). exfalso. lra.
  - pose proof (proj2 (Hiff (a - 1))) as H. exfalso. lra.
  - pose proof (proj1 (Hiff (Rmax a b' + 1))) as H.
    pose proof (Rmax_l a b'). pose proof (Rmax_r a b'). exfalso. lra.
  - pose proof (proj1 (Hiff a)) as H1. pose proof (proj2 (Hiff a')) as H2.
    split; [f_equal; lra | reflexivity].
Qed.

Lemma line_halfplane_intersect_post (line : Line) (others : list Line) :
  interval_post line others NegInf PosInf
    (line_halfplane_intersect line others).
Proof. apply line_halfplane_intersect_loop_spec. Qed.

Lemma line_halfplane_intersect_proper (line : Line) (others : list Line)
    (lo hi : ereal) :
  line_halfplane_intersect line others = Ok (lo, hi) -> proper_bounds lo hi.
Proof.
  apply line_halfplane_intersect_loop_bounds. exact proper_bounds_full.
Qed.

(** X1. [line_halfplane_intersect] returns exactly the interval of the
    offsets along the boundary of [line] at which every other line is
    satisfied, and that interval is not empty; it raises
    [InfeasibleError], and nothing else, exactly when there is no such
    offset. *)
Theorem line_halfplane_intersect_exact (line : Line) (other_lines : list Line) :
  match line_halfplane_intersect line other_lines with
  | Ok (left_dist, right_dist) =>
      (forall s, in_interval left_dist right_dist s
                 <-> feasible other_lines (on_line line s))
      /\ exists s, feasible other_lines (on_line line s)
  | Raise e =>
      e = InfeasibleError
      /\ forall s, ~ feasible other_lines (on_line line s)
  | NonFinite => False
  end
  /\ ((forall s, ~ feasible other_lines (on_line line s))
      <-> line_halfplane_intersect line other_lines = Raise InfeasibleError).
Proof.
  pose proof (line_halfplane_intersect_post line other_lines) as H.
  pose proof (line_halfplane_intersect_proper line other_lines) as Hb.
  unfold interval_post, all_satisfied_at in H.
  destruct (line_halfplane_intersect line other_lines) as [[lo hi] | e |].
  - assert (Hiff : forall s, in_interval lo hi s
                             <-> feasible other_lines (on_line line s)).
    { intros s. rewrite (H s). pose proof (in_interval_full s). tauto. }
    destruct (proper_bounds_nonempty lo hi (Hb lo hi eq_refl)) as [s0 Hs0].
    split; [split; [exact Hiff | exists s0; apply Hiff; exact Hs0] |].
    split; [| discriminate].
    intros Hno. exfalso. apply (Hno s0). apply Hiff. exact Hs0.
  - destruct H as [He Hno].
    assert (Hno' : forall s, ~ feasible other_lines (on_line line s)).
    { intros s Hs. apply (Hno s). split; [apply in_interval_full | exact Hs]. }
    split; [split; [exact He | exact Hno'] |].
    split; [intros _; rewrite He; reflexivity | intros _; exact Hno'].
  - destruct H.
Qed.

(** X2. The result of [line_halfplane_intersect] does not depend on the
    order of the other lines: the bounds returned are the same, and it
    raises for one order exactly when it raises for the other. *)
Theorem line_halfplane_intersect_permutation
    (line : Line) (other_lines other_lines' : list Line) :
  Permutation other_lines other_lines' ->
  line_halfplane_intersect line other_lines
  = line_halfplane_intersect line other_lines'.
Proof.
  intros HP.
  pose proof (line_halfplane_intersect_post line other_lines) as H.
  pose proof (line_halfplane_intersect_post line other_lines') as H'.
  pose proof (line_halfplane_intersect_proper line other_lines) as Hb.
  pose proof (line_halfplane_intersect_proper line other_lines') as Hb'.
  assert (Hperm : forall s, all_satisfied_at line other_lines s
                            <-> all_satisfied_at line other_lines' s).
  { intros s. unfold all_satisfied_at. split; apply feasible_perm;
      [exact HP | apply Permutation_sym; exact HP]. }
  unfold interval_post in H, H'.
  destruct (line_halfplane_intersect line other_lines) as [[lo hi] | e |];
    destruct (line_halfplane_intersect line other_lines') as [[lo' hi'] | e' |];
    try contradiction.
  - specialize (Hb lo hi eq_refl). specialize (Hb' lo' hi' eq_refl).
    destruct (in_interval_bounds_eq lo hi lo' hi' Hb Hb') as [-> ->];
      [| reflexivity].
    intros s. rewrite (H s), (H' s), (Hperm s). tauto.
  - specialize (Hb lo hi eq_refl).
    destruct (proper_bounds_nonempty lo hi Hb) as [s Hs].
    destruct H' as [_ Hno]. exfalso. apply (Hno s).
    apply H in Hs. rewrite <- (Hperm s). exact Hs.
  - specialize (Hb' lo' hi' eq_refl).
    destruct (proper_bounds_nonempty lo' hi' Hb') as [s Hs].
    destruct H as [_ Hno]. exfalso. apply (Hno s).
    apply H' in Hs. rewrite (Hperm s). exact Hs.
  - destruct H as [-> _]. destruct H' as [-> _]. reflexivity.
Qed.

Lemma line_halfplane_intersect_permutation_witness :
  line_halfplane_intersect line_x_ge_0 [line_y_ge_0; line_x_le_m1]
  = line_halfplane_intersect line_x_ge_0 [line_x_le_m1; line_y_ge_0].
Proof.
  apply line_halfplane_intersect_permutation. apply perm_swap.
Defined.

(** ** Projection on a boundary line *)

Lemma point_line_project_clamped (line : Line) (pt : Vector2) (lo hi : ereal) :
  proper_bounds lo hi ->
  exists c,
    point_line_project line pt lo hi = Ok (on_line line c)
    /\ in_interval lo hi c
    /\ forall s, in_interval lo hi s ->
                 (c - dot (pt - point line) (perp (direction line)))
                 * (c - dot (pt - point line) (perp (direction line)))
                 <= (s - dot (pt - point line) (perp (direction line)))
                    * (s - dot (pt - point line) (perp (direction line))).
Proof.
  intros Hb. unfold point_line_project.
  destruct (clip_in_interval (dot (pt - point line) (perp (direction line)))
              lo hi Hb) as (c & Ec & Hc & Hmin).
  exists c. rewrite Ec. auto.
Qed.

Lemma on_line_foot (line : Line) (pt : Vector2) :
  Line_wf line ->
  on_line line (dot (pt - point line) (perp (direction line))) = foot line pt.
Proof.
  unfold Line_wf, on_line, foot, norm_sq, dot, perp, vadd, vsub, vscale.
  destruct line as [[ax ay] [dx dy]], pt as [px py]; simpl.
  intros Hu. apply vec2_eq; simpl.
  - assert (E : ax + dy * ((px - ax) * dy + (py - ay) * - dx)
                - (px - dx * ((px - ax) * dx + (py - ay) * dy))
                = (px - ax) * (dx * dx + dy * dy - 1)) by ring.
    rewrite Hu in E. lra.
  - assert (E : ay + - dx * ((px - ax) * dy + (py - ay) * - dx)
                - (py - dy * ((px - ax) * dx + (py - ay) * dy))
                = (py - ay) * (dx * dx + dy * dy - 1)) by ring.
    rewrite Hu in E. lra.
Qed.

Lemma clip_unbounded (x : R) : clip (Fin x) NegInf PosInf = Fin x.
Proof. reflexivity. Qed.

Lemma point_line_project_foot (line : Line) (pt : Vector2) :
  Line_wf line -> point_line_project line pt NegInf PosInf = Ok (foot line pt).
Proof.
  intros Hwf. unfold point_line_project. rewrite clip_unbounded.
  fold (on_line line (dot (pt - point line) (perp (direction line)))).
  rewrite (on_line_foot line pt Hwf). reflexivity.
Qed.

Lemma norm_dist_sq (a b : Vector2) : norm (b - a) = sqrt (dist_sq a b).
Proof. reflexivity. Qed.

(** X3. For a Line and bounds [lo <= hi] (the left one not [+inf], the
    right one not [-inf]), [point_line_project] returns the point of the
    segment of the boundary between the two offsets that is closest to
    [pt]. *)
Theorem point_line_project_closest
    (line : Line) (pt : Vector2) (left_bound right_bound : ereal) :
  Line_wf line ->
  ele left_bound right_bound ->
  left_bound <> PosInf -> right_bound <> NegInf ->
  exists c,
    point_line_project line pt left_bound right_bound = Ok (on_line line c)
    /\ in_interval left_bound right_bound c
    /\ forall s, in_interval left_bound right_bound s ->
                 norm (on_line line c - pt) <= norm (on_line line s - pt).
Proof.
  intros Hwf Hle Hlo Hhi.
  destruct (point_line_project_clamped line pt left_bound right_bound
              (conj Hle (conj Hlo Hhi))) as (c & E & Hc & Hmin).
  exists c. split; [exact E |]. split; [exact Hc |].
  intros s Hs. rewrite !norm_dist_sq. apply sqrt_le_1_alt.
  rewrite (dist_sq_on_line line pt c Hwf), (dist_sq_on_line line pt s Hwf).
  specialize (Hmin s Hs). lra.
Qed.

Lemma point_line_project_closest_witness :
  exists c,
    point_line_project line_x_ge_0 (vec2 3 4) (Fin (-10)) (Fin (-3))
    = Ok (on_line line_x_ge_0 c)
    /\ in_interval (Fin (-10)) (Fin (-3)) c
    /\ forall s, in_interval (Fin (-10)) (Fin (-3)) s ->
                 norm (on_line line_x_ge_0 c - vec2 3 4)
                 <= norm (on_line line_x_ge_0 s - vec2 3 4).
Proof.
  apply point_line_project_closest.
  - unfold Line_wf, norm_sq, dot; simpl; lra.
  - unfold ele; simpl; lra.
  - discriminate.
  - discriminate.
Defined.

(** X4. With the bounds [-inf] and [+inf], [point_line_project] is the
    orthogonal projection on the boundary of the Line: it returns
    [pt - dot(pt - anchor, direction) * direction], which lies on the
    boundary, is the boundary point closest to [pt], and is returned
    unchanged when projected again. *)
Theorem point_line_project_orthogonal (line : Line) (pt : Vector2) :
  Line_wf line ->
  point_line_project line pt NegInf PosInf = Ok (foot line pt)
  /\ dot (foot line pt - point line) (direction line) = 0
  /\ (forall q, dot (q - point line) (direction line) = 0 ->
                norm (foot line pt - pt) <= norm (q - pt))
  /\ point_line_project line (foot line pt) NegInf PosInf = Ok (foot line pt).
Proof.
  intros Hwf. split; [apply point_line_project_foot; exact Hwf |].
  assert (Hon : dot (foot line pt - point line) (direction line) = 0).
  { rewrite <- (on_line_foot line pt Hwf). apply on_line_boundary. }
  split; [exact Hon |]. split.
  - intros q Hq. rewrite !norm_dist_sq. apply sqrt_le_1_alt.
    rewrite (boundary_on_line line q Hwf Hq).
    rewrite <- (on_line_foot line pt Hwf).
    rewrite !(dist_sq_on_line line pt _ Hwf).
    match goal with |- ?a * ?a + ?g <= ?b * ?b + ?g =>
      replace a with 0 by ring; pose proof (Rle_0_sqr b) as Hsq;
      unfold Rsqr in Hsq; lra
    end.
  - rewrite (point_line_project_foot line _ Hwf). f_equal.
    rewrite <- (on_line_foot line (foot line pt) Hwf).
    symmetry. apply boundary_on_line; assumption.
Qed.

Lemma point_line_project_orthogonal_witness :
  point_line_project line_x_ge_0 (vec2 3 4) NegInf PosInf
  = Ok (foot line_x_ge_0 (vec2 3 4)).
Proof.
  apply point_line_project_orthogonal.
  unfold Line_wf, norm_sq, dot; simpl; lra.
Defined.

(** ** The solver as a projection on a convex region *)

Lemma dist_sq_lerp_expand (target p q : Vector2) (t : R) :
  dist_sq target (lerp p q t)
  = dist_sq target p - 2 * t * dot (target - p) (q - p)
    + t * t * dist_sq p q.
Proof. unfold dist_sq, norm_sq, dot, lerp, vsub; simpl; ring. Qed.

(** The segment from the closest point to any feasible point makes an
    obtuse angle with the segment to the target. *)
Lemma optimum_obtuse (lines : list Line) (target p q : Vector2) :
  optimum lines target p -> feasible lines q ->
  dot (target - p) (q - p) <= 0.
Proof.
  intros [Hp Hopt] Hq.
  set (A := dot (target - p) (q - p)).
  set (D := dist_sq p q).
  assert (HD : 0 <= D) by apply dist_sq_nonneg.
  assert (Hall : forall t, 0 <= t <= 1 -> 0 <= - 2 * t * A + t * t * D).
  { intros t Ht.
    pose proof (Hopt _ (feasible_lerp lines p q t Ht Hp Hq)) as H.
    rewrite dist_sq_lerp_expand in H. fold A D in H. lra. }
  destruct (Rle_dec A 0) as [Hle | Hgt]; [exact Hle |].
  exfalso. assert (HA : 0 < A) by lra.
  destruct (Rle_dec A D) as [HAD | HAD].
  - assert (HDpos : 0 < D) by lra.
    assert (Ht : 0 <= A / D <= 1).
    { split.
      - apply Rmult_le_reg_r with D; [exact HDpos |].
        replace (A / D * D) with A by (field; lra). lra.
      - apply Rmult_le_reg_r with D; [exact HDpos |].
        replace (A / D * D) with A by (field; lra). lra. }
    pose proof (Hall (A / D) Ht) as H.
    replace (- 2 * (A / D) * A + A / D * (A / D) * D)
      with (- (A * A / D)) in H by (field; lra).
    assert (0 < A * A / D).
    { apply Rdiv_lt_0_compat; [| exact HDpos]. apply Rmult_lt_0_compat; lra. }
    lra.
  - assert (H1 : 0 <= 1 <= 1) by lra.
    pose proof (Hall 1 H1) as H. lra.
Qed.

Lemma cauchy_schwarz (a b : Vector2) :
  dot a b * dot a b <= norm_sq a * norm_sq b.
Proof.
  unfold norm_sq, dot.
  pose proof (Rle_0_sqr (vx a * vy b - vy a * vx b)) as H.
  unfold Rsqr in H. nra.
Qed.

Lemma optimum_nonexpansive (lines : list Line) (a b pa pb : Vector2) :
  optimum lines a pa -> optimum lines b pb ->
  dist_sq pa pb <= dist_sq a b.
Proof.
  intros Ha Hb.
  pose proof (optimum_obtuse lines a pa pb Ha (proj1 Hb)) as H1.
  pose proof (optimum_obtuse lines b pb pa Hb (proj1 Ha)) as H2.
  set (d := (pb - pa)%V). set (e := (b - a)%V).
  assert (Hd : dist_sq pa pb = norm_sq d) by reflexivity.
  assert (He : dist_sq a b = norm_sq e) by reflexivity.
  assert (Hsum : norm_sq d <= dot e d).
  { unfold d, e, norm_sq, dot, vsub in *. simpl in *. lra. }
  pose proof (cauchy_schwarz e d) as Hcs.
  pose proof (norm_sq_nonneg d) as Hd0.
  pose proof (norm_sq_nonneg e) as He0.
  rewrite Hd, He.
  destruct (Req_dec_T (norm_sq d) 0) as [Hz | Hnz]; [lra |].
  assert (Hpos : 0 < norm_sq d) by lra.
  assert (Hsq : norm_sq d * norm_sq d <= dot e d * dot e d)
    by (apply Rmult_le_compat; lra).
  assert (Hmul : norm_sq d * norm_sq d <= norm_sq e * norm_sq d) by lra.
  apply Rmult_le_reg_r with (norm_sq d); [exact Hpos | exact Hmul].
Qed.

Lemma point_line_project_boundary (line : Line) (pt p : Vector2)
    (lo hi : ereal) :
  point_line_project line pt lo hi = Ok p ->
  dot (p - point line) (direction line) = 0.
Proof.
  unfold point_line_project.
  destruct (clip _ lo hi) as [| c |]; try discriminate.
  intros E. injection E as <-. apply (on_line_boundary line c).
Qed.

Lemma halfplane_optimize_loop_boundary (lines : list Line) (target : Vector2)
    (rest : list Line) :
  forall i pt p,
    halfplane_optimize_loop lines target i rest pt = Ok p ->
    p = pt
    \/ exists l, In l rest /\ dot (p - point l) (direction l) = 0.
Proof.
  induction rest as [| line rest IH]; intros i pt p; simpl.
  - intros E. injection E as <-. left. reflexivity.
  - destruct (Rge_dec _ 0).
    + intros E. destruct (IH _ _ _ E) as [-> | (l & Hl & Hb)].
      * left. reflexivity.
      * right. exists l. auto.
    + destruct (line_halfplane_intersect line (firstn i lines))
        as [[lo hi] | e |]; simpl; try discriminate.
      destruct (point_line_project line target lo hi) as [pt' | e |] eqn:Ep;
        simpl; try discriminate.
      intros E. right. destruct (IH _ _ _ E) as [-> | (l & Hl & Hb)].
      * exists line. split; [left; reflexivity |].
        exact (point_line_project_boundary _ _ _ _ _ Ep).
      * exists l. auto.
Qed.

Lemma solver_post_ok (lines : list Line) (target p : Vector2) :
  Forall Line_wf lines -> halfplane_optimize lines target = Ok p ->
  optimum lines target p.
Proof.
  intros Hwf E. pose proof (halfplane_optimize_spec lines target Hwf) as H.
  rewrite E in H. exact H.
Qed.

Lemma optimum_feasible_target (lines : list Line) (p : Vector2) :
  feasible lines p -> halfplane_optimize lines p = Ok p.
Proof.
  intros H. unfold halfplane_optimize.
  apply halfplane_optimize_loop_noop. exact H.
Qed.

(** Runs of the solver used as witnesses. *)
Example halfplane_optimize_run_corner :
  halfplane_optimize [line_x_ge_0; line_y_ge_0] (vec2 (-1) (-2))
  = Ok (vec2 0 0).
Proof.
  unfold halfplane_optimize. simpl.
  decide_tests; f_equal; apply vec2_eq; simpl; lra.
Qed.

Example halfplane_optimize_run_edge :
  halfplane_optimize [line_x_ge_0; line_y_ge_0] (vec2 3 (-1))
  = Ok (vec2 3 0).
Proof.
  unfold halfplane_optimize. simpl.
  decide_tests; f_equal; apply vec2_eq; simpl; lra.
Qed.

Example halfplane_optimize_run_single :
  halfplane_optimize [line_x_ge_0] (vec2 (-1) (-2)) = Ok (vec2 0 (-2)).
Proof.
  unfold halfplane_optimize. simpl.
  decide_tests; f_equal; apply vec2_eq; simpl; lra.
Qed.

(** X5. On a single Line the solver returns the target when the target
    lies in the half-plane, and otherwise the foot of the perpendicular
    from the target to the boundary. *)
Theorem halfplane_optimize_single (l : Line) (target : Vector2) :
  Line_wf l ->
  halfplane_optimize [l] target
  = Ok (if Rge_dec (dot (target - point l) (direction l)) 0
        then target else foot l target).
Proof.
  intros Hwf. unfold halfplane_optimize.
  cbn [halfplane_optimize_loop firstn].
  destruct (Rge_dec _ 0); [reflexivity |].
  unfold line_halfplane_intersect.
  cbn [line_halfplane_intersect_loop bind].
  rewrite (point_line_project_foot l target Hwf). reflexivity.
Qed.

Lemma halfplane_optimize_single_witness :
  halfplane_optimize [line_x_ge_0] (vec2 (-1) 2)
  = Ok (if Rge_dec (dot (vec2 (-1) 2 - point line_x_ge_0)
                        (direction line_x_ge_0)) 0
        then vec2 (-1) 2 else foot line_x_ge_0 (vec2 (-1) 2)).
Proof.
  apply halfplane_optimize_single.
  unfold Line_wf, norm_sq, dot; simpl; lra.
Defined.

(** X7. The solver is idempotent: the point it returns for a target is
    returned unchanged when it is given as the target. *)
Theorem halfplane_optimize_idempotent
    (lines : list Line) (target p : Vector2) :
  Forall Line_wf lines ->
  halfplane_optimize lines target = Ok p ->
  halfplane_optimize lines p = Ok p.
Proof.
  intros Hwf E. apply optimum_feasible_target.
  apply (solver_post_ok lines target p Hwf E).
Qed.

Lemma halfplane_optimize_idempotent_witness :
  halfplane_optimize [line_x_ge_0; line_y_ge_0] (vec2 0 0) = Ok (vec2 0 0).
Proof.
  apply (halfplane_optimize_idempotent _ (vec2 (-1) (-2))).
  - repeat constructor; unfold Line_wf, norm_sq, dot; simpl; lra.
  - exact halfplane_optimize_run_corner.
Defined.

(** X8. The solver is non-expansive: the points returned for two targets
    are no farther apart than the targets. *)
Theorem halfplane_optimize_nonexpansive
    (lines : list Line) (a b pa pb : Vector2) :
  Forall Line_wf lines ->
  halfplane_optimize lines a = Ok pa ->
  halfplane_optimize lines b = Ok pb ->
  norm (pb - pa) <= norm (b - a).
Proof.
  intros Hwf Ea Eb. rewrite !norm_dist_sq. apply sqrt_le_1_alt.
  apply (optimum_nonexpansive lines).
  - exact (solver_post_ok lines a pa Hwf Ea).
  - exact (solver_post_ok lines b pb Hwf Eb).
Qed.

Lemma halfplane_optimize_nonexpansive_witness :
  norm (vec2 3 0 - vec2 0 0) <= norm (vec2 3 (-1) - vec2 (-1) (-2)).
Proof.
  apply (halfplane_optimize_nonexpansive [line_x_ge_0; line_y_ge_0]).
  - repeat constructor; unfold Line_wf, norm_sq, dot; simpl; lra.
  - exact halfplane_optimize_run_corner.
  - exact halfplane_optimize_run_edge.
Defined.

(** X9. Adding constraints: if the point returned for [lines] satisfies
    the added lines, it is also the point returned for [lines ++ more];
    in any case a point returned for [lines ++ more] is no nearer to the
    target than the point returned for [lines]. *)
Theorem halfplane_optimize_more_constraints
    (lines more : list Line) (target p : Vector2) :
  Forall Line_wf lines -> Forall Line_wf more ->
  halfplane_optimize lines target = Ok p ->
  (feasible more p -> halfplane_optimize (lines ++ more) target = Ok p)
  /\ (forall p', halfplane_optimize (lines ++ more) target = Ok p' ->
                 norm (p - target) <= norm (p' - target)).
Proof.
  intros Hwf Hwf' E.
  pose proof (solver_post_ok lines target p Hwf E) as [Hf Ho].
  assert (Hall : Forall Line_wf (lines ++ more))
    by (apply Forall_app; split; assumption).
  split.
  - intros Hmore.
    assert (Hopt : optimum (lines ++ more) target p).
    { split.
      - apply feasible_app. split; assumption.
      - intros q Hq. apply Ho. apply feasible_app in Hq. tauto. }
    destruct (halfplane_optimize_feasible (lines ++ more) target Hall
                (ex_intro _ p (proj1 Hopt))) as (p' & E' & Hopt').
    rewrite E'. f_equal.
    exact (optimum_unique (lines ++ more) target p' p Hopt' Hopt).
  - intros p' E'.
    pose proof (solver_post_ok _ target p' Hall E') as [Hf' _].
    rewrite !norm_dist_sq. apply sqrt_le_1_alt. apply Ho.
    apply feasible_app in Hf'. tauto.
Qed.

Lemma halfplane_optimize_more_constraints_witness :
  (feasible [line_y_ge_0] (vec2 0 (-2)) ->
   halfplane_optimize ([line_x_ge_0] ++ [line_y_ge_0]) (vec2 (-1) (-2))
   = Ok (vec2 0 (-2)))
  /\ (forall p',
         halfplane_optimize ([line_x_ge_0] ++ [line_y_ge_0]) (vec2 (-1) (-2))
         = Ok p' ->
         norm (vec2 0 (-2) - vec2 (-1) (-2)) <= norm (p' - vec2 (-1) (-2))).
Proof.
  apply halfplane_optimize_more_constraints.
  - repeat constructor; unfold Line_wf, norm_sq, dot; simpl; lra.
  - repeat constructor; unfold Line_wf, norm_sq, dot; simpl; lra.
  - exact halfplane_optimize_run_single.
Defined.

(** X10. A point returned by the solver is the target itself or lies on
    the boundary of one of the lines. *)
Theorem halfplane_optimize_on_boundary
    (lines : list Line) (target p : Vector2) :
  halfplane_optimize lines target = Ok p ->
  p = target
  \/ exists l, In l lines /\ dot (p - point l) (direction l) = 0.
Proof. apply halfplane_optimize_loop_boundary. Qed.

Lemma halfplane_optimize_on_boundary_witness :
  vec2 0 0 = vec2 (-1) (-2)
  \/ exists l, In l [line_x_ge_0; line_y_ge_0]
               /\ dot (vec2 0 0 - point l) (direction l) = 0.
Proof.
  apply halfplane_optimize_on_boundary.
  exact halfplane_optimize_run_corner.
Defined.

(** X11. The result of the solver depends on the region only: two lists
    of Lines with the same nonempty intersection give the same point. *)
Theorem halfplane_optimize_same_region
    (lines lines' : list Line) (target q0 : Vector2) :
  Forall Line_wf lines -> Forall Line_wf lines' ->
  (forall q, feasible lines q <-> feasible lines' q) ->
  feasible lines q0 ->
  exists p, halfplane_optimize lines target = Ok p
            /\ halfplane_optimize lines' target = Ok p.
Proof.
  intros Hwf Hwf' Hsame Hq0.
  pose proof (halfplane_optimize_spec lines target Hwf) as H.
  pose proof (halfplane_optimize_spec lines' target Hwf') as H'.
  destruct (halfplane_optimize lines target) as [p | e |];
    destruct (halfplane_optimize lines' target) as [p' | e' |];
    simpl in H, H'; try contradiction.
  - exists p. split; [reflexivity |]. f_equal. symmetry.
    apply (optimum_unique lines target); [exact H |].
    destruct H' as [Hf' Ho']. split.
    + apply Hsame. exact Hf'.
    + intros q Hq. apply Ho'. apply Hsame. exact Hq.
  - destruct H' as [_ Hno]. exfalso. apply (Hno q0). apply Hsame. exact Hq0.
  - destruct H as [_ Hno]. exfalso. apply (Hno q0). exact Hq0.
  - destruct H as [_ Hno]. exfalso. apply (Hno q0). exact Hq0.
Qed.

Lemma halfplane_optimize_same_region_witness :
  exists p,
    halfplane_optimize [line_x_ge_0; line_y_ge_0] (vec2 (-1) (-2)) = Ok p
    /\ halfplane_optimize [line_y_ge_0; line_x_ge_0; line_y_ge_0]
         (vec2 (-1) (-2)) = Ok p.
Proof.
  apply (halfplane_optimize_same_region _ _ _ (vec2 1 1)).
  - repeat constructor; unfold Line_wf, norm_sq, dot; simpl; lra.
  - repeat constructor; unfold Line_wf, norm_sq, dot; simpl; lra.
  - intros q. unfold feasible. split; intros H.
    + inversion H as [| ? ? H0 H']; subst.
      inversion H' as [| ? ? H1 _]; subst.
      constructor; [exact H1 |]. constructor; [exact H0 |].
      constructor; [exact H1 | constructor].
    + inversion H as [| ? ? H0 H']; subst.
      inversion H' as [| ? ? H1 _]; subst.
      constructor; [exact H1 |]. constructor; [exact H0 | constructor].
  - repeat constructor; unfold satisfies, dot, vsub; simpl; lra.
Defined.

(** X12. Translating every Line and the target by the same vector
    translates the result of the solver by that vector, and leaves its
    failure as it is. *)
Theorem halfplane_optimize_translation
    (lines : list Line) (target w : Vector2) :
  Forall Line_wf lines ->
  halfplane_optimize (map (translate_line w) lines) (target + w)
  = outcome_map (fun p => (p + w)%V) (halfplane_optimize lines target).
Proof.
  intros Hwf.
  assert (Hwf' : Forall Line_wf (map (translate_line w) lines)).
  { apply Forall_map. eapply Forall_impl; [| exact Hwf]. intros l Hl. exact Hl. }
  assert (Hsat : forall l q, satisfies (translate_line w l) (q + w)
                             <-> satisfies l q).
  { intros l q. unfold satisfies, translate_line, dot, vsub, vadd. simpl.
    replace (vx q + vx w - (vx (point l) + vx w)) with (vx q - vx (point l))
      by ring.
    replace (vy q + vy w - (vy (point l) + vy w)) with (vy q - vy (point l))
      by ring.
    tauto. }
  assert (Hfeas : forall q, feasible (map (translate_line w) lines) (q + w)
                            <-> feasible lines q).
  { intros q. unfold feasible. rewrite Forall_map. split; intros H;
      (eapply Forall_impl; [| exact H]); intros l Hl; apply (Hsat l q); exact Hl. }
  assert (Hback : forall q, q = ((q - w) + w)%V)
    by (intros q; apply vec2_eq; simpl; ring).
  assert (Hdist : forall p q, dist_sq (target + w) (p + w) <= dist_sq (target + w) q
                              <-> dist_sq target p <= dist_sq target (q - w)).
  { intros p q. unfold dist_sq, norm_sq, dot, vsub, vadd. simpl.
    split; intros H; nra. }
  pose proof (halfplane_optimize_spec lines target Hwf) as H.
  pose proof (halfplane_optimize_spec (map (translate_line w) lines)
                (target + w) Hwf') as H'.
  destruct (halfplane_optimize lines target) as [p | e |];
    destruct (halfplane_optimize (map (translate_line w) lines) (target + w))
      as [p' | e' |]; simpl in *; try contradiction.
  - f_equal.
    apply (optimum_unique (map (translate_line w) lines) (target + w));
      [exact H' |].
    destruct H as [Hf Ho]. split.
    + apply Hfeas. exact Hf.
    + intros q Hq. apply Hdist. apply Ho. apply Hfeas.
      rewrite <- (Hback q). exact Hq.
  - destruct H as [Hf _]. destruct H' as [_ Hno].
    exfalso. apply (Hno (p + w)%V). apply Hfeas. exact Hf.
  - destruct H' as [Hf' _]. destruct H as [_ Hno].
    exfalso. apply (Hno (p' - w)%V). apply Hfeas.
    rewrite <- (Hback p'). exact Hf'.
  - destruct H as [-> _]. destruct H' as [-> _]. reflexivity.
Qed.

Lemma halfplane_optimize_translation_witness :
  halfplane_optimize (map (translate_line (vec2 5 7)) [line_x_ge_0; line_y_ge_0])
    (vec2 (-1) (-2) + vec2 5 7)
  = outcome_map (fun p => (p + vec2 5 7)%V)
      (halfplane_optimize [line_x_ge_0; line_y_ge_0] (vec2 (-1) (-2))).
Proof.
  apply halfplane_optimize_translation.
  repeat constructor; unfold Line_wf, norm_sq, dot; simpl; lra.
Defined.

(** ** The geometry primitives *)

(** X13. [perp] is a quarter turn: applied twice it negates the vector,
    the result is orthogonal to the argument and has its length, and
    [det(a, b)] is [- dot(perp(a), b)]. *)
Theorem perp_quarter_turn (a b : Vector2) :
  perp (perp a) = (- a)%V
  /\ dot a (perp a) = 0
  /\ norm (perp a) = norm a
  /\ det a b = - dot (perp a) b
  /\ dot (perp a) (perp b) = dot a b.
Proof.
  split; [| split; [| split; [| split]]].
  - apply vec2_eq; simpl; ring.
  - unfold dot, perp; simpl; ring.
  - unfold norm. rewrite norm_sq_perp. reflexivity.
  - unfold det, dot, perp; simpl; ring.
  - unfold dot, perp; simpl; ring.
Qed.
